(** * SSD detection layers of [python/paddle/v2/fluid/layers/detection.py]

    The Python module only assembles a computation graph: every layer
    creates temporary variables and appends operator descriptions to the
    current block.  The development below embeds that graph construction
    as a state-and-error monad over an explicit graph, and states the
    properties of the layers [detection_output], [prior_box],
    [bipartite_match], [target_assign] and [ssd_loss] over it.

    The numeric kernels behind the operators ([bipartite_match],
    [target_assign], [mine_hard_examples]) are native code that is not part
    of the Python module; they are modelled in the second half from their
    written description. *)

From Stdlib Require Import ZArith List String Ascii Bool Lia QArith Qround.
From Stdlib Require Import Sorted Permutation.
From Stdlib Require Import Floats.PrimFloat Floats.SpecFloat Floats.FloatOps.
Import ListNotations.

Set Warnings "-register-all,-inexact-float".

Local Open Scope string_scope.
Local Open Scope list_scope.
Local Open Scope Z_scope.

(** ** Python values *)

(** Graph variables are handles into the variable table of the block. *)
Definition Var := nat.
Bind Scope nat_scope with Var.

(** The Python values that reach the layers of this module as arguments,
    operator inputs or operator attributes. *)
Inductive pyval : Type :=
| PNone
| PBool (b : bool)
| PInt (z : Z)
| PFloat (f : float)
| PStr (s : string)
| PList (l : list pyval)
| PTuple (l : list pyval)
| PVar (v : Var).

(** The exceptions raised by the code of this module and by the Python
    primitives it uses. *)
Inductive exn : Type :=
| ValueError (msg : string)
| AssertionError (msg : string)
| TypeError (msg : string)
| IndexError (msg : string)
| OverflowError (msg : string).

Inductive result (A : Type) : Type :=
| Ok (a : A)
| Raise (e : exn).
Arguments Ok {A} a.
Arguments Raise {A} e.

Definition is_ValueError {A} (r : result A) : bool :=
  match r with Raise (ValueError _) => true | _ => false end.

Definition is_Ok {A} (r : result A) : bool :=
  match r with Ok _ => true | Raise _ => false end.

(** Truth value of a Python object, as tested by [if x:]. *)
Definition truthy (v : pyval) : bool :=
  match v with
  | PNone => false
  | PBool b => b
  | PInt z => negb (z =? 0)
  | PFloat f => negb (PrimFloat.eqb f 0%float)
  | PStr s => negb (String.eqb s EmptyString)
  | PList l => match l with [] => false | _ => true end
  | PTuple l => match l with [] => false | _ => true end
  | PVar _ => true
  end.

(** [isinstance(v, list)]. *)
Definition is_list (v : pyval) : bool :=
  match v with PList _ => true | _ => false end.

(** [len(v)]. *)
Definition py_len (v : pyval) : result Z :=
  match v with
  | PList l | PTuple l => Ok (Z.of_nat (List.length l))
  | PStr s => Ok (Z.of_nat (String.length s))
  | _ => Raise (TypeError "object has no len()")
  end.

(** [v[i]] for a non-negative index [i]. *)
Definition py_getitem (v : pyval) (i : nat) : result pyval :=
  match v with
  | PList l | PTuple l =>
      match nth_error l i with
      | Some x => Ok x
      | None => Raise (IndexError "index out of range")
      end
  | PStr s =>
      match String.get i s with
      | Some c => Ok (PStr (String c EmptyString))
      | None => Raise (IndexError "string index out of range")
      end
  | _ => Raise (TypeError "object has no attribute '__getitem__'")
  end.

(** [isinstance(v, list) and len(v) == n]. *)
Definition is_list_of_len (v : pyval) (n : nat) : bool :=
  match v with
  | PList l => Nat.eqb (List.length l) n
  | _ => false
  end.

(** [v if isinstance(v, list) else [v]]. *)
Definition as_list (v : pyval) : pyval :=
  if is_list v then v else PList [v].

(** Conversion of a Python integer to a float (round to nearest even;
    integers beyond the double range raise [OverflowError]). *)
Definition py_float_of_int (z : Z) : result float :=
  let f := SF2Prim (binary_normalize prec emax z 0 false) in
  if PrimFloat.is_infinity f
  then Raise (OverflowError "long int too large to convert to float")
  else Ok f.

(** [int(math.floor(x))] for a float [x]. *)
Definition py_int_floor (x : float) : result Z :=
  match Prim2SF x with
  | S754_zero _ => Ok 0
  | S754_finite s m e =>
      let mag :=
        if 0 <=? e then Z.pos m * 2 ^ e
        else if s then - ((- Z.pos m) / 2 ^ (- e))
        else Z.pos m / 2 ^ (- e) in
      Ok (if s then - mag else mag)
  | S754_infinity _ =>
      Raise (OverflowError "cannot convert float infinity to integer")
  | S754_nan => Raise (ValueError "cannot convert float NaN to integer")
  end.

(** A Python integer that fits a C [long] of 64 bits. *)
Definition fits_long (z : Z) : bool :=
  (- 2 ^ 63 <=? z) && (z <? 2 ^ 63).

(** [xrange(lo, hi, step)]. *)
Definition xrange (lo hi step : Z) : result (list Z) :=
  if negb (fits_long lo && fits_long hi && fits_long step)
  then Raise (OverflowError "Python int too large to convert to C long")
  else if step =? 0 then Raise (ValueError "xrange() arg 3 must not be zero")
  else
    let n :=
      if (0 <? step) && (lo <? hi) then (hi - lo - 1) / step + 1
      else if (step <? 0) && (hi <? lo) then (lo - hi - 1) / (- step) + 1
      else 0 in
    Ok (map (fun k => lo + Z.of_nat k * step) (seq 0 (Z.to_nat n))).

(** Sequencing of Python primitives that may raise. *)
Definition rbind {A B} (r : result A) (k : A -> result B) : result B :=
  match r with
  | Ok a => k a
  | Raise e => Raise e
  end.

(** [reduce(lambda x, y: x * y, l)]. *)
Definition reduce_mul (l : list Z) : result Z :=
  match l with
  | [] => Raise (TypeError "reduce() of empty sequence with no initial value")
  | x :: l' => Ok (fold_left Z.mul l' x)
  end.

(** ** The operator graph *)

Record VarDesc : Type := mkVarDesc {
  var_dtype : string;
  var_shape : list Z
}.

(** An operator description, as passed to [append_op]: the operator kind
    and the three dictionaries, in the order in which the source writes
    their entries. *)
Record OpDesc : Type := mkOpDesc {
  op_type : string;
  op_inputs : list (string * pyval);
  op_outputs : list (string * Var);
  op_attrs : list (string * pyval)
}.

Record Graph : Type := mkGraph {
  g_vars : list VarDesc;
  g_ops : list OpDesc
}.

(** Lookup in a dictionary written as an association list. *)
Fixpoint lookup {A} (k : string) (d : list (string * A)) : option A :=
  match d with
  | [] => None
  | (k', v) :: d' => if String.eqb k k' then Some v else lookup k d'
  end.

Definition attr_of (k : string) (o : OpDesc) : option pyval :=
  lookup k (op_attrs o).

Definition input_of (k : string) (o : OpDesc) : option pyval :=
  lookup k (op_inputs o).

Definition output_of (k : string) (o : OpDesc) : option Var :=
  lookup k (op_outputs o).

(** ** Graph construction monad

    A layer transforms the graph and either returns a value or raises; the
    graph built so far survives an exception, as the Python block does. *)

Definition M (A : Type) : Type := Graph -> Graph * result A.

Definition ret {A} (a : A) : M A := fun g => (g, Ok a).

Definition raise {A} (e : exn) : M A := fun g => (g, Raise e).

Definition bind {A B} (m : M A) (k : A -> M B) : M B :=
  fun g =>
    match m g with
    | (g', Ok a) => k a g'
    | (g', Raise e) => (g', Raise e)
    end.

Definition lift {A} (r : result A) : M A := fun g => (g, r).

Declare Scope graph_scope.
Delimit Scope graph_scope with graph.
Notation "x <- m ;; k" := (bind m (fun x => k))
  (at level 100, m at next level, right associativity) : graph_scope.
Notation "' p <- m ;; k" := (bind m (fun x => let p := x in k))
  (at level 100, p pattern, m at next level, right associativity) : graph_scope.
Notation "m ;;; k" := (bind m (fun _ => k))
  (at level 100, right associativity) : graph_scope.
Local Open Scope graph_scope.

(** [for x in xs: acc = f(acc, x)]. *)
Fixpoint foldM {A B} (f : B -> A -> M B) (xs : list A) (acc : B) : M B :=
  match xs with
  | [] => ret acc
  | x :: xs' => acc' <- f acc x ;; foldM f xs' acc'
  end.

(** The operators appended by running [m] from [g]. *)
Definition new_ops {A} (m : M A) (g : Graph) : list OpDesc :=
  skipn (List.length (g_ops g)) (g_ops (fst (m g))).

Fixpoint list_set {A} (l : list A) (i : nat) (x : A) : list A :=
  match l, i with
  | [], _ => []
  | _ :: l', O => x :: l'
  | y :: l', S i' => y :: list_set l' i' x
  end.

(** The description read for a handle that is not in the table. *)
Definition d0 : VarDesc := mkVarDesc EmptyString [].

Section Runtime.

(** Shape inference belongs to the executing runtime: when an operator is
    appended, the runtime computes the shape of each of its outputs from
    the variable table and the operator description. *)
Variable infer_shape : list VarDesc -> OpDesc -> string -> list Z.

(** *** The layer helper *)

Record LayerHelper : Type := mkLayerHelper {
  layer_type : string;
  kwargs : list (string * pyval)
}.

Definition get_var (v : Var) : M VarDesc :=
  fun g => (g, Ok (nth v (g_vars g) d0)).

(** [v.shape] *)
Definition shape_of (v : Var) : M (list Z) :=
  d <- get_var v ;; ret (var_shape d).

(** [v.dtype] *)
Definition dtype_of (v : Var) : M string :=
  d <- get_var v ;; ret (var_dtype d).

(** [helper.create_tmp_variable(dtype)]: a fresh variable whose shape is
    not known yet. *)
Definition create_tmp_variable (h : LayerHelper) (dtype : string) : M Var :=
  fun g =>
    (mkGraph (g_vars g ++ [mkVarDesc dtype []]) (g_ops g),
     Ok (List.length (g_vars g))).

Definition set_shape (vars : list VarDesc) (v : Var) (s : list Z)
  : list VarDesc :=
  match nth_error vars v with
  | Some d => list_set vars v (mkVarDesc (var_dtype d) s)
  | None => vars
  end.

(** [helper.append_op(type, inputs, outputs, attrs)]: the operator is
    recorded at the end of the block and the shapes of its outputs are
    inferred. *)
Definition append_op (h : LayerHelper) (type : string)
    (inputs : list (string * pyval)) (outputs : list (string * Var))
    (attrs : list (string * pyval)) : M unit :=
  fun g =>
    let op := mkOpDesc type inputs outputs attrs in
    let vars :=
      fold_left
        (fun vs kv => set_shape vs (snd kv) (infer_shape (g_vars g) op (fst kv)))
        outputs (g_vars g) in
    (mkGraph vars (g_ops g ++ [op]), Ok tt).

(** [helper.input_dtype()]: the dtype of the layer's [input] argument. *)
Definition input_dtype (h : LayerHelper) : M string :=
  match lookup "input" (kwargs h) with
  | Some (PVar v) => dtype_of v
  | _ => ret EmptyString
  end.


(** *** Layers defined in other modules of the framework

    [iou_similarity] and [box_coder] are produced by [generate_layer_fn];
    [ops.reshape], [tensor.cast], [tensor.concat],
    [nn.softmax_with_cross_entropy], [nn.smooth_l1] and the arithmetic
    operators of [Variable] live in sibling modules. *)

(** Modelled from the spec: the layer functions of the sibling modules are
    missing from the sources at hand; following the description of the
    runtime interface ("append operator node", "create temporary tensor
    handle"), each of them creates its output placeholders and appends one
    operator node of its own kind. *)
Definition generated_layer (type : string) (dtype : string)
    (inputs : list (string * pyval)) (out_slot : string)
    (attrs : list (string * pyval)) : M Var :=
  let helper := mkLayerHelper type (inputs ++ attrs) in
  out <- create_tmp_variable helper dtype ;;
  append_op helper type inputs [(out_slot, out)] attrs ;;;
  ret out.

(** Modelled from the spec: [iou_similarity(x, y)], the pairwise overlap
    matrix between two box sets (layer missing from the sources). *)
Definition iou_similarity (x y : Var) : M Var :=
  dtype <- dtype_of x ;;
  generated_layer "iou_similarity" dtype [("X", PVar x); ("Y", PVar y)] "Out" [].

(** Modelled from the spec: [box_coder(prior_box, prior_box_var, target_box,
    code_type)], encoding or decoding boxes relative to the priors (layer
    missing from the sources). *)
Definition box_coder (prior_box : Var) (prior_box_var : pyval)
    (target_box : Var) (code_type : string) : M Var :=
  dtype <- dtype_of prior_box ;;
  generated_layer "box_coder" dtype
    [("PriorBox", PVar prior_box); ("PriorBoxVar", prior_box_var);
     ("TargetBox", PVar target_box)]
    "OutputBox" [("code_type", PStr code_type)].

(** Modelled from the spec: [ops.reshape(x, shape)] (layer missing from the
    sources). *)
Definition reshape (x : Var) (shape : list Z) : M Var :=
  dtype <- dtype_of x ;;
  generated_layer "reshape" dtype [("X", PVar x)] "Out"
    [("shape", PList (map PInt shape))].

(** Modelled from the spec: [tensor.cast(x, dtype)] (layer missing from the
    sources). *)
Definition cast (x : Var) (dtype : string) : M Var :=
  in_dtype <- dtype_of x ;;
  generated_layer "cast" dtype [("X", PVar x)] "Out"
    [("in_dtype", PStr in_dtype); ("out_dtype", PStr dtype)].

(** Modelled from the spec: [tensor.concat(input)] along the first axis
    (layer missing from the sources). *)
Definition concat (xs : list Var) : M Var :=
  dtype <- match xs with x :: _ => dtype_of x | [] => ret EmptyString end ;;
  generated_layer "concat" dtype [("X", PList (map PVar xs))] "Out"
    [("axis", PInt 0)].

(** Modelled from the spec: [nn.softmax_with_cross_entropy(logits, label)],
    returning the per-row loss (layer missing from the sources). *)
Definition softmax_with_cross_entropy (logits label : Var) : M Var :=
  dtype <- dtype_of logits ;;
  let helper :=
    mkLayerHelper "softmax_with_cross_entropy"
      [("logits", PVar logits); ("label", PVar label)] in
  softmax <- create_tmp_variable helper dtype ;;
  loss <- create_tmp_variable helper dtype ;;
  append_op helper "softmax_with_cross_entropy"
    [("Logits", PVar logits); ("Label", PVar label)]
    [("Softmax", softmax); ("Loss", loss)] [] ;;;
  ret loss.

(** Modelled from the spec: [nn.smooth_l1(x, y)], the smooth L1 loss summed
    over the coordinates of each row (layer missing from the sources). *)
Definition smooth_l1 (x y : Var) : M Var :=
  dtype <- dtype_of x ;;
  let helper := mkLayerHelper "smooth_l1_loss" [("x", PVar x); ("y", PVar y)] in
  diff <- create_tmp_variable helper dtype ;;
  loss <- create_tmp_variable helper dtype ;;
  append_op helper "smooth_l1_loss"
    [("X", PVar x); ("Y", PVar y)] [("Diff", diff); ("Out", loss)] [] ;;;
  ret loss.

(** Modelled from the spec: the arithmetic operators of [Variable]
    ([a * b], [a + b], also with a Python scalar on the left) are missing
    from the sources; each appends one elementwise operator node whose [X]
    and [Y] inputs are the two operands as written.  How the runtime
    materialises a scalar operand is not modelled. *)
Definition elementwise (type : string) (x y : pyval) (like : Var)
  : M Var :=
  dtype <- dtype_of like ;;
  generated_layer type dtype [("X", x); ("Y", y)] "Out" [].

Definition var_mul (x y : Var) : M Var :=
  elementwise "elementwise_mul" (PVar x) (PVar y) x.

Definition scalar_mul (c : pyval) (y : Var) : M Var :=
  elementwise "elementwise_mul" c (PVar y) y.

Definition var_add (x y : Var) : M Var :=
  elementwise "elementwise_add" (PVar x) (PVar y) x.

(** *** [detection_output] *)

Definition detection_output (scores loc prior_box prior_box_var : Var)
    (background_label nms_threshold nms_top_k keep_top_k score_threshold
       nms_eta : pyval) : M Var :=
  let helper :=
    mkLayerHelper "detection_output"
      [("scores", PVar scores); ("loc", PVar loc);
       ("prior_box", PVar prior_box); ("prior_box_var", PVar prior_box_var);
       ("background_label", background_label);
       ("nms_threshold", nms_threshold); ("nms_top_k", nms_top_k);
       ("keep_top_k", keep_top_k); ("score_threshold", score_threshold);
       ("nms_eta", nms_eta)] in
  decoded_box <- box_coder prior_box (PVar prior_box_var) loc
                   "decode_center_size" ;;
  dtype <- dtype_of decoded_box ;;
  nmsed_outs <- create_tmp_variable helper dtype ;;
  append_op helper "multiclass_nms"
    [("Scores", PVar scores); ("BBoxes", PVar decoded_box)]
    [("Out", nmsed_outs)]
    [("background_label", PInt 0);
     ("nms_threshold", nms_threshold);
     ("nms_top_k", nms_top_k);
     ("keep_top_k", keep_top_k);
     ("score_threshold", score_threshold);
     ("nms_eta", PFloat 1.0)] ;;;
  ret nmsed_outs.

(** *** [prior_box] *)

Definition _prior_box_ (input : pyval) (image : Var)
    (min_sizes max_sizes aspect_ratios variance flip clip step_w step_h
       offset : pyval) : M (Var * Var) :=
  let helper :=
    mkLayerHelper "prior_box"
      [("input", input); ("image", PVar image);
       ("min_sizes", min_sizes); ("max_sizes", max_sizes);
       ("aspect_ratios", aspect_ratios); ("variance", variance);
       ("flip", flip); ("clip", clip); ("step_w", step_w);
       ("step_h", step_h); ("offset", offset); ("name", PNone)] in
  dtype <- input_dtype helper ;;
  box <- create_tmp_variable helper dtype ;;
  var <- create_tmp_variable helper dtype ;;
  append_op helper "prior_box"
    [("Input", input); ("Image", PVar image)]
    [("Boxes", box); ("Variances", var)]
    [("min_sizes", min_sizes);
     ("max_sizes", max_sizes);
     ("aspect_ratios", aspect_ratios);
     ("variances", variance);
     ("flip", flip);
     ("clip", clip);
     ("step_w", step_w);
     ("step_h", step_h);
     ("offset", offset)] ;;;
  ret (box, var).

Definition _reshape_with_axis_ (input : Var) (axis : nat) : M Var :=
  shape <- shape_of input ;;
  if negb ((0 <? axis)%nat && (axis <? List.length shape)%nat)
  then raise (ValueError ("The axis should be smaller than "
                            ++ "the arity of input and bigger than 0.")%string)
  else
    n <- lift (reduce_mul (skipn axis shape)) ;;
    reshape input [-1; n].

(** The sizes computed from the ratios when there are more than two
    layers: [base_size * ratio / 100.] and
    [base_size * (ratio + step) / 100.] for every ratio of the range. *)
Fixpoint ratio_sizes (base_size step : Z) (ratios : list Z)
  : result (list pyval * list pyval) :=
  match ratios with
  | [] => Ok ([], [])
  | ratio :: rest =>
      rbind (py_float_of_int (base_size * ratio)) (fun lo =>
      rbind (py_float_of_int (base_size * (ratio + step))) (fun hi =>
      rbind (ratio_sizes base_size step rest) (fun '(mins, maxs) =>
      Ok (PFloat (lo / 100)%float :: mins, PFloat (hi / 100)%float :: maxs))))
  end.

(** The first part of [prior_box]: the [min_sizes] and [max_sizes] lists,
    either checked (at most two layers) or computed from the ratios. *)
Definition layer_sizes (num_layer : nat) (min_ratio max_ratio base_size : Z)
    (min_sizes max_sizes : pyval) : result (pyval * pyval) :=
  if (num_layer <=? 2)%nat then
    match min_sizes, max_sizes with
    | PNone, _ | _, PNone => Raise (AssertionError EmptyString)
    | _, _ =>
        rbind (py_len min_sizes) (fun n1 =>
        if negb (n1 =? Z.of_nat num_layer) then Raise (AssertionError EmptyString)
        else
          rbind (py_len max_sizes) (fun n2 =>
          if negb (n2 =? Z.of_nat num_layer) then Raise (AssertionError EmptyString)
          else Ok (min_sizes, max_sizes)))
    end
  else
    rbind (py_float_of_int
             ((max_ratio - min_ratio) / (Z.of_nat num_layer - 2))) (fun q =>
    rbind (py_int_floor q) (fun step =>
    rbind (xrange min_ratio (max_ratio + 1) step) (fun ratios =>
    rbind (ratio_sizes base_size step ratios) (fun '(mins, maxs) =>
    rbind (py_float_of_int base_size) (fun b =>
    Ok (PList (PFloat (b * 0.10)%float :: mins),
        PList (PFloat (b * 0.20)%float :: maxs))))))).

(** The checks on the per-layer arguments; [steps], when given, replaces
    both [step_w] and [step_h]. *)
Definition check_steps (num_layer : nat) (aspect_ratios steps step_w step_h : pyval)
  : result (pyval * pyval) :=
  if truthy aspect_ratios && negb (is_list_of_len aspect_ratios num_layer)
  then Raise (ValueError
                ("aspect_ratios should be list and the length of inputs "
                   ++ "and aspect_ratios should be the same.")%string)
  else if truthy step_h && negb (is_list_of_len step_h num_layer)
  then Raise (ValueError
                ("step_h should be list and the length of inputs and "
                   ++ "step_h should be the same.")%string)
  else if truthy step_w && negb (is_list_of_len step_w num_layer)
  then Raise (ValueError
                ("step_w should be list and the length of inputs and "
                   ++ "step_w should be the same.")%string)
  else if truthy steps then
    if negb (is_list_of_len steps num_layer)
    then Raise (ValueError
                  ("steps should be list and the length of inputs and "
                     ++ "step_w should be the same.")%string)
    else Ok (steps, steps)
  else Ok (step_w, step_h).

(** The body of the loop over [enumerate(inputs)]. *)
Definition prior_box_layer (image : Var)
    (min_sizes max_sizes aspect_ratios step_w step_h offset variance flip
       clip : pyval)
    (acc : list Var * list Var) (ix : nat * pyval)
  : M (list Var * list Var) :=
  let '(box_results, var_results) := acc in
  let '(i, input) := ix in
  min_size <- lift (py_getitem min_sizes i) ;;
  max_size <- lift (py_getitem max_sizes i) ;;
  let min_size := as_list min_size in
  let max_size := as_list max_size in
  aspect_ratio <-
    (if truthy aspect_ratios
     then a <- lift (py_getitem aspect_ratios i) ;; ret (as_list a)
     else ret (PList [])) ;;
  sw <- (if truthy step_w then lift (py_getitem step_w i)
         else ret (PFloat 0.0)) ;;
  sh <- (if truthy step_w then lift (py_getitem step_h i)
         else ret (PFloat 0.0)) ;;
  '(box, var) <- _prior_box_ input image min_size max_size aspect_ratio
                   variance flip clip sw sh offset ;;
  ret (box_results ++ [box], var_results ++ [var]).

(** The end of [prior_box]: a single pair of results is returned as it is,
    several are reshaped to two dimensions and concatenated. *)
Definition prior_box_tail (box_results var_results : list Var)
  : M (Var * Var) :=
  match box_results, var_results with
  | [box], [var] => ret (box, var)
  | _, _ =>
      '(reshaped_boxes, reshaped_vars) <-
        foldM (fun '(bs, vs) '(b, v) =>
                 b' <- _reshape_with_axis_ b 3 ;;
                 v' <- _reshape_with_axis_ v 3 ;;
                 ret (bs ++ [b'], vs ++ [v']))
              (combine box_results var_results) ([], []) ;;
      box <- concat reshaped_boxes ;;
      var <- concat reshaped_vars ;;
      ret (box, var)
  end.

(** [inputs] is any Python value: the first statement of the function
    asserts that it is a list; its entries are handed to the operators as
    they are. *)
Definition prior_box (inputs : pyval) (image : Var)
    (min_ratio max_ratio : Z) (aspect_ratios : pyval) (base_size : Z)
    (steps step_w step_h offset variance flip clip min_sizes max_sizes
       name : pyval) : M (Var * Var) :=
  match inputs with
  | PList inputs =>
      let num_layer := List.length inputs in
      '(min_sizes, max_sizes) <-
        lift (layer_sizes num_layer min_ratio max_ratio base_size
                min_sizes max_sizes) ;;
      '(step_w, step_h) <-
        lift (check_steps num_layer aspect_ratios steps step_w step_h) ;;
      '(box_results, var_results) <-
        foldM (prior_box_layer image min_sizes max_sizes aspect_ratios
                 step_w step_h offset variance flip clip)
              (combine (seq 0 num_layer) inputs) ([], []) ;;
      prior_box_tail box_results var_results
  | _ => raise (AssertionError "inputs should be a list.")
  end.

(** *** [bipartite_match] *)

Definition bipartite_match (dist_matrix : Var) (name : pyval) : M (Var * Var) :=
  let helper :=
    mkLayerHelper "bipartite_match"
      [("dist_matrix", PVar dist_matrix); ("name", name)] in
  match_indices <- create_tmp_variable helper "int32" ;;
  dtype <- dtype_of dist_matrix ;;
  match_distance <- create_tmp_variable helper dtype ;;
  append_op helper "bipartite_match"
    [("DistMat", PVar dist_matrix)]
    [("ColToRowMatchIndices", match_indices);
     ("ColToRowMatchDist", match_distance)]
    [] ;;;
  ret (match_indices, match_distance).

(** *** [target_assign] *)

Definition target_assign (input matched_indices : Var)
    (negative_indices mismatch_value name : pyval) : M (Var * Var) :=
  let helper :=
    mkLayerHelper "target_assign"
      [("input", PVar input); ("matched_indices", PVar matched_indices);
       ("negative_indices", negative_indices);
       ("mismatch_value", mismatch_value); ("name", name)] in
  dtype <- dtype_of input ;;
  out <- create_tmp_variable helper dtype ;;
  out_weight <- create_tmp_variable helper "float32" ;;
  append_op helper "target_assign"
    [("X", PVar input);
     ("MatchIndices", PVar matched_indices);
     ("NegIndices", negative_indices)]
    [("Out", out); ("OutWeight", out_weight)]
    [("mismatch_value", mismatch_value)] ;;;
  ret (out, out_weight).

(** *** [ssd_loss] *)

(** [var.shape[-1]] *)
Definition last_dim (v : Var) : M Z :=
  shape <- shape_of v ;;
  match rev shape with
  | d :: _ => ret d
  | [] => raise (IndexError "tuple index out of range")
  end.

Definition __reshape_to_2d (var : Var) : M Var :=
  d <- last_dim var ;;
  reshape var [-1; d].

Definition ssd_loss (location confidence gt_box gt_label prior_box : Var)
    (prior_box_var background_label overlap_threshold neg_pos_ratio
       neg_overlap loc_loss_weight conf_loss_weight : pyval)
    (match_type mining_type : string) (sample_size : pyval) : M Var :=
  let helper :=
    mkLayerHelper "ssd_loss"
      [("location", PVar location); ("confidence", PVar confidence);
       ("gt_box", PVar gt_box); ("gt_label", PVar gt_label);
       ("prior_box", PVar prior_box); ("prior_box_var", prior_box_var);
       ("background_label", background_label);
       ("overlap_threshold", overlap_threshold);
       ("neg_pos_ratio", neg_pos_ratio); ("neg_overlap", neg_overlap);
       ("loc_loss_weight", loc_loss_weight);
       ("conf_loss_weight", conf_loss_weight);
       ("match_type", PStr match_type); ("mining_type", PStr mining_type);
       ("sample_size", sample_size)] in
  if negb (String.eqb mining_type "max_negative")
  then raise (ValueError "Only support mining_type == max_negative now.")
  else
    conf_shape <- shape_of confidence ;;
    match conf_shape with
    | [num; num_prior; num_class] =>
        (* 1. Find matched bounding box by prior box. *)
        iou <- iou_similarity gt_box prior_box ;;
        '(matched_indices, matched_dist) <- bipartite_match iou PNone ;;
        (* 2. Compute confidence for mining hard examples. *)
        gt_label_shape <- shape_of gt_label ;;
        gt_label <- reshape gt_label (gt_label_shape ++ [1]) ;;
        '(target_label, _) <-
          target_assign gt_label matched_indices PNone background_label PNone ;;
        confidence <- __reshape_to_2d confidence ;;
        target_label <- cast target_label "int64" ;;
        target_label <- __reshape_to_2d target_label ;;
        conf_loss <- softmax_with_cross_entropy confidence target_label ;;
        (* 3. Mining hard examples. *)
        conf_loss <- reshape conf_loss [num; num_prior] ;;
        neg_indices <- create_tmp_variable helper "int32" ;;
        dtype <- dtype_of matched_indices ;;
        updated_matched_indices <- create_tmp_variable helper dtype ;;
        append_op helper "mine_hard_examples"
          [("ClsLoss", PVar conf_loss);
           ("LocLoss", PNone);
           ("MatchIndices", PVar matched_indices);
           ("MatchDist", PVar matched_dist)]
          [("NegIndices", neg_indices);
           ("UpdatedMatchIndices", updated_matched_indices)]
          [("neg_pos_ratio", neg_pos_ratio);
           ("neg_dist_threshold", neg_pos_ratio);
           ("mining_type", PStr mining_type);
           ("sample_size", sample_size)] ;;;
        (* 4. Assign classification and regression targets. *)
        encoded_bbox <- box_coder prior_box prior_box_var gt_box
                          "encode_center_size" ;;
        '(target_bbox, target_loc_weight) <-
          target_assign encoded_bbox updated_matched_indices PNone
            background_label PNone ;;
        '(target_label, target_conf_weight) <-
          target_assign gt_label updated_matched_indices (PVar neg_indices)
            background_label PNone ;;
        (* 5. Compute loss. *)
        target_label <- __reshape_to_2d target_label ;;
        target_label <- cast target_label "int64" ;;
        conf_loss <- softmax_with_cross_entropy confidence target_label ;;
        target_conf_weight <- __reshape_to_2d target_conf_weight ;;
        conf_loss <- var_mul conf_loss target_conf_weight ;;
        location <- __reshape_to_2d location ;;
        target_bbox <- __reshape_to_2d target_bbox ;;
        loc_loss <- smooth_l1 location target_bbox ;;
        target_loc_weight <- __reshape_to_2d target_loc_weight ;;
        loc_loss <- var_mul loc_loss target_loc_weight ;;
        weighted_conf <- scalar_mul conf_loss_weight conf_loss ;;
        weighted_loc <- scalar_mul loc_loss_weight loc_loss ;;
        var_add weighted_conf weighted_loc
    | _ => raise (ValueError "wrong number of values to unpack")
    end.

End Runtime.

(** * The numeric operators behind the layers

    The kernels of [target_assign], [mine_hard_examples] and
    [bipartite_match] are native operators of the framework; the Python
    module only names them.  They are modelled here from their written
    description, with the real numbers of the description taken as
    rationals. *)

Local Open Scope Q_scope.

(** Strict comparison of two rationals. *)
Definition Qltb (x y : Q) : bool :=
  match x ?= y with Lt => true | _ => false end.

(** ** Target assigner *)

Module TargetAssign.

(** A feature vector of [K] numbers. *)
Definition feature := list Q.

(** A target entry: the feature vector written to [Out] and the weight
    written to [OutWeight]. *)
Definition entry : Type := feature * Q.

(** The fill value broadcast across the [K] features. *)
Definition mismatched (mismatch_value : Q) (K : nat) : feature :=
  repeat mismatch_value K.

(** The row offset of instance [i] in a batched tensor. *)
Definition offset (lod : list nat) (i : nat) : nat := nth i lod O.

(** [X[lod[i] + id][j mod P_x]]; a read outside [X] is not described and
    yields the fill value. *)
Definition source (X : list (list feature)) (lod : list nat)
    (mismatch_value : Q) (K : nat) (i : nat) (id : Z) (j : nat) : feature :=
  match nth_error X (offset lod i + Z.to_nat id) with
  | Some row =>
      match nth_error row (j mod List.length row) with
      | Some x => x
      | None => mismatched mismatch_value K
      end
  | None => mismatched mismatch_value K
  end.

(** Modelled from the spec: the first step of the target assigner (kernel
    missing from the sources).  For instance [i] and column [j], a match
    index [id >= 0] copies the source row with weight [1], anything else
    writes the fill value with weight [0]. *)
Definition assign_entry (X : list (list feature)) (lod : list nat)
    (mismatch_value : Q) (K : nat) (i j : nat) (id : Z) : entry :=
  if (0 <=? id)%Z then (source X lod mismatch_value K i id j, 1)
  else (mismatched mismatch_value K, 0).

Definition assign_instance (X : list (list feature)) (lod : list nat)
    (mismatch_value : Q) (K : nat) (i : nat) (indices : list Z)
  : list entry :=
  map (fun '(j, id) => assign_entry X lod mismatch_value K i j id)
      (combine (seq 0 (List.length indices)) indices).

Definition assign_matched (X : list (list feature)) (lod : list nat)
    (mismatch_value : Q) (K : nat) (match_indices : list (list Z))
  : list (list entry) :=
  map (fun '(i, indices) => assign_instance X lod mismatch_value K i indices)
      (combine (seq 0 (List.length match_indices)) match_indices).

(** The negative indices of instance [i]: the segment of the flat index
    list between two consecutive offsets. *)
Definition negatives (neg_indices : list Z) (neg_lod : list nat) (i : nat)
  : list Z :=
  firstn (offset neg_lod (S i) - offset neg_lod i)
         (skipn (offset neg_lod i) neg_indices).

(** Modelled from the spec: the second step of the target assigner.  Every
    negative index [id] of the instance overwrites column [id] with the
    fill value and weight [1]. *)
Definition overwrite_negative (mismatch_value : Q) (K : nat)
    (row : list entry) (id : Z) : list entry :=
  if (0 <=? id)%Z
  then list_set row (Z.to_nat id) (mismatched mismatch_value K, 1)
  else row.

Definition assign_negatives (mismatch_value : Q) (K : nat)
    (neg_indices : list Z) (neg_lod : list nat) (rows : list (list entry))
  : list (list entry) :=
  map (fun '(i, row) =>
         fold_left (overwrite_negative mismatch_value K)
                   (negatives neg_indices neg_lod i) row)
      (combine (seq 0 (List.length rows)) rows).

(** Modelled from the spec: the target assigner, from the source tensor
    [X] with its segment offsets, the match indices, the optional negative
    indices with their own offsets, and the fill value. *)
Definition target_assign (X : list (list feature)) (lod : list nat)
    (match_indices : list (list Z))
    (neg : option (list Z * list nat)) (mismatch_value : Q) (K : nat)
  : list (list entry) :=
  let rows := assign_matched X lod mismatch_value K match_indices in
  match neg with
  | Some (neg_indices, neg_lod) =>
      assign_negatives mismatch_value K neg_indices neg_lod rows
  | None => rows
  end.

(** [Out[i][j]] and [OutWeight[i][j]]. *)
Definition at_ (rows : list (list entry)) (i j : nat) : option entry :=
  match nth_error rows i with
  | Some row => nth_error row j
  | None => None
  end.

End TargetAssign.

(** ** Hard negative miner *)

Module HardMiner.

(** The number of positives of an instance: the entries of the match
    indices that are [>= 0]. *)
Definition num_pos (match_indices : list Z) : nat :=
  List.length (filter (fun id => (0 <=? id)%Z) match_indices).

(** A prior is a candidate negative when it is unmatched and its match
    distance is below the threshold. *)
Definition is_candidate (neg_dist_threshold : Q) (id : Z) (dist : Q) : bool :=
  (id =? -1)%Z && Qltb dist neg_dist_threshold.

(** The candidate priors, by ascending index. *)
Definition candidates (neg_dist_threshold : Q) (match_indices : list Z)
    (match_dist : list Q) : list nat :=
  map fst
    (filter (fun '(_, (id, dist)) => is_candidate neg_dist_threshold id dist)
       (combine (seq 0 (List.length match_indices))
          (combine match_indices match_dist))).

Definition loss_of (cls_loss : list Q) (j : nat) : Q := nth j cls_loss 0.

(** [outranks cls_loss a b]: prior [a] is ranked before prior [b], by
    classification loss descending, ties by ascending prior index. *)
Definition outranks (cls_loss : list Q) (a b : nat) : bool :=
  match loss_of cls_loss a ?= loss_of cls_loss b with
  | Gt => true
  | Eq => (a <? b)%nat
  | Lt => false
  end.

(** [before cls_loss a b]: prior [a] is not ranked after prior [b]. *)
Definition before (cls_loss : list Q) (a b : nat) : Prop :=
  outranks cls_loss b a = false.

Fixpoint insert (cls_loss : list Q) (a : nat) (l : list nat) : list nat :=
  match l with
  | [] => [a]
  | b :: l' =>
      if outranks cls_loss a b then a :: l
      else b :: insert cls_loss a l'
  end.

(** The priors of [l] by rank. *)
Definition rank (cls_loss : list Q) (l : list nat) : list nat :=
  fold_right (insert cls_loss) [] l.

(** [floor(neg_pos_ratio * num_pos)], at least [0]. *)
Definition quota (neg_pos_ratio : Q) (npos : nat) : nat :=
  Z.to_nat (Qfloor (neg_pos_ratio * inject_Z (Z.of_nat npos))).

(** Modelled from the spec: the hard negative miner for one instance
    (kernel missing from the sources): the candidates are ranked by
    classification loss and the first [floor(neg_pos_ratio * num_pos)] of
    them are selected. *)
Definition mine_instance (cls_loss : list Q) (match_indices : list Z)
    (match_dist : list Q) (neg_pos_ratio neg_dist_threshold : Q) : list nat :=
  firstn (quota neg_pos_ratio (num_pos match_indices))
    (rank cls_loss (candidates neg_dist_threshold match_indices match_dist)).

(** Modelled from the spec: the miner over a batch, one group of negative
    indices per instance; the updated match indices are a copy of the
    match indices. *)
Definition mine_hard_examples (cls_loss : list (list Q))
    (match_indices : list (list Z)) (match_dist : list (list Q))
    (neg_pos_ratio neg_dist_threshold : Q)
  : list (list nat) * list (list Z) :=
  (map (fun '(loss, (ids, dist)) =>
          mine_instance loss ids dist neg_pos_ratio neg_dist_threshold)
       (combine cls_loss (combine match_indices match_dist)),
   match_indices).

End HardMiner.

(** ** Bipartite matcher *)

Module BipartiteMatch.

(** The entry of the distance matrix at row [r] and column [c]. *)
Definition entry (dist : list (list Q)) (r c : nat) : Q :=
  nth c (nth r dist []) 0.

(** One step of a scan for the maximum: a key replaces the best one so far
    only when its value is positive and strictly larger, so that among
    equal values the first encountered wins. *)
Definition scan_step {K} (f : K -> Q) (best : option (K * Q)) (k : K)
  : option (K * Q) :=
  let d := f k in
  if Qltb 0 d then
    match best with
    | None => Some (k, d)
    | Some (_, bd) => if Qltb bd d then Some (k, d) else best
    end
  else best.

(** The first key of maximal value among the keys of positive value. *)
Definition argmax {K} (f : K -> Q) (keys : list K) : option (K * Q) :=
  fold_left (scan_step f) keys None.

(** What a scan knows after the keys [seen]: no key of positive value, or
    the first key of maximal value with the keys before and after it. *)
Definition scanned {K} (f : K -> Q) (seen : list K) (best : option (K * Q))
  : Prop :=
  match best with
  | None => forall k, In k seen -> ~ 0 < f k
  | Some (k, d) =>
      d = f k /\ 0 < d
      /\ exists l1 l2,
           seen = l1 ++ k :: l2
           /\ (forall k', In k' l1 -> f k' < d)
           /\ (forall k', In k' l2 -> f k' <= d)
  end.

(** Strict row-major order on the entries. *)
Definition rowmajor_lt (k k' : nat * nat) : Prop :=
  (fst k < fst k')%nat \/ (fst k = fst k' /\ (snd k < snd k')%nat).

(** The columns that are still unmatched, ascending. *)
Definition unmatched (matches : list Z) : list nat :=
  filter (fun c => (nth c matches 0 =? -1)%Z) (seq 0 (List.length matches)).

(** The remaining entries in scan order: row-major, ascending. *)
Definition remaining (pool : list nat) (matches : list Z) : list (nat * nat) :=
  flat_map (fun r => map (pair r) (unmatched matches)) pool.

(** The globally maximum remaining entry. *)
Definition select (dist : list (list Q)) (pool : list nat) (matches : list Z)
  : option ((nat * nat) * Q) :=
  argmax (fun '(r, c) => entry dist r c) (remaining pool matches).

(** The state of the matcher: the rows not yet consumed, the match index
    and the match distance of every column. *)
Record state : Type := mkState {
  pool : list nat;
  indices : list Z;
  distances : list Q
}.

Definition initial (rows cols : nat) : state :=
  mkState (seq 0 rows) (repeat (-1)%Z cols) (repeat (-1) cols).

(** Recording the match of column [c] with row [r]: the row leaves the
    pool and the column gets its index and distance. *)
Definition record (s : state) (r c : nat) (d : Q) : state :=
  mkState (remove Nat.eq_dec r (pool s))
          (list_set (indices s) c (Z.of_nat r))
          (list_set (distances s) c d).

(** Modelled from the spec: the primary pass of the bipartite matcher
    (kernel missing from the sources).  It repeatedly selects the globally
    maximum remaining entry, records the match and removes the matched row
    and column, until all rows are consumed or no entry with similarity
    [> 0] remains.  The fuel bounds the number of rounds by the number of
    rows. *)
Fixpoint primary (dist : list (list Q)) (fuel : nat) (s : state) : state :=
  match fuel with
  | O => s
  | S fuel' =>
      match pool s with
      | [] => s
      | _ :: _ =>
          match select dist (pool s) (indices s) with
          | None => s
          | Some ((r, c), d) => primary dist fuel' (record s r c d)
          end
      end
  end.

(** The best row of column [c] among all the rows, matched or not. *)
Definition best_row (dist : list (list Q)) (rows c : nat) : option (nat * Q) :=
  argmax (fun r => entry dist r c) (seq 0 rows).

(** Modelled from the spec: the fallback pass.  Every column that is still
    unmatched gets its best row, whether that row is already matched or
    not; a column without a row of similarity [> 0] stays at [-1]. *)
Definition fallback (dist : list (list Q)) (rows : nat)
    (indices : list Z) (distances : list Q) : list (Z * Q) :=
  map (fun '(c, (id, d)) =>
         if (id =? -1)%Z then
           match best_row dist rows c with
           | Some (r, d') => (Z.of_nat r, d')
           | None => (id, d)
           end
         else (id, d))
      (combine (seq 0 (List.length indices)) (combine indices distances)).

(** The result of the primary pass on a matrix of [rows] by [cols]. *)
Definition primary_pass (dist : list (list Q)) (rows cols : nat) : state :=
  primary dist rows (initial rows cols).

(** Modelled from the spec: the bipartite matcher for one instance, giving
    the match index and the match distance of every column. *)
Definition bipartite_match (dist : list (list Q)) (rows cols : nat)
  : list (Z * Q) :=
  let s := primary_pass dist rows cols in
  fallback dist rows (indices s) (distances s).

(** *** What the description asks of the matcher *)

(** Row-major order on the entries. *)
Definition rowmajor_le (r c r' c' : nat) : Prop :=
  (r < r')%nat \/ (r = r' /\ (c <= c')%nat).

(** An entry remains when its row is not consumed and its column is not
    matched. *)
Definition is_remaining (s : state) (r c : nat) : Prop :=
  In r (pool s)
  /\ (c < List.length (indices s))%nat
  /\ nth c (indices s) 0%Z = (-1)%Z.

(** [(r, c)] holds the maximum [d] of the remaining entries, it is
    positive, and it is the first such entry of the scan. *)
Definition first_maximum (dist : list (list Q)) (s : state) (r c : nat)
    (d : Q) : Prop :=
  is_remaining s r c
  /\ d = entry dist r c
  /\ 0 < d
  /\ forall r' c',
       is_remaining s r' c' ->
       entry dist r' c' <= d
       /\ (d <= entry dist r' c' -> rowmajor_le r c r' c').

(** All rows are consumed, or no remaining entry has a similarity [> 0]. *)
Definition exhausted (dist : list (list Q)) (s : state) : Prop :=
  pool s = []
  \/ forall r c, is_remaining s r c -> ~ 0 < entry dist r c.

(** The greedy matching as the description words it: select the first
    maximum of the remaining entries, record it, repeat until the matrix
    is exhausted. *)
Inductive greedy (dist : list (list Q)) : state -> state -> Prop :=
| greedy_stop s : exhausted dist s -> greedy dist s s
| greedy_match s r c d s' :
    first_maximum dist s r c d ->
    greedy dist (record s r c d) s' ->
    greedy dist s s'.

(** The invariant of the primary pass on a matrix with [rows] rows: the
    pool is ascending and within the rows; a matched column holds a row
    that has left the pool, and no two columns hold the same row. *)
Definition well_formed (rows : nat) (s : state) : Prop :=
  StronglySorted lt (pool s)
  /\ (forall r, In r (pool s) -> (r < rows)%nat)
  /\ List.length (distances s) = List.length (indices s)
  /\ (forall c id,
        nth_error (indices s) c = Some id ->
        id = (-1)%Z
        \/ ((0 <= id < Z.of_nat rows)%Z /\ ~ In (Z.to_nat id) (pool s)))
  /\ (forall c1 c2 id,
        c1 <> c2 ->
        nth_error (indices s) c1 = Some id ->
        nth_error (indices s) c2 = Some id ->
        id = (-1)%Z).

(** [r] is the best row of column [c]: its similarity [d] is positive and
    maximal among all rows, and it is the first row to reach it. *)
Definition best_of_column (dist : list (list Q)) (rows c r : nat) (d : Q)
  : Prop :=
  (r < rows)%nat
  /\ d = entry dist r c
  /\ 0 < d
  /\ forall r', (r' < rows)%nat ->
       entry dist r' c <= d /\ (d <= entry dist r' c -> (r <= r')%nat).

End BipartiteMatch.

Local Close Scope Q_scope.

(** * Vocabulary of the statements *)

(** The handle of the first output of an operator: the first temporary
    that its layer created. *)
Definition first_output (op : OpDesc) : Var :=
  match op_outputs op with
  | (_, v) :: _ => v
  | [] => O
  end.

(** [shaped_at infer T vars op]: every output of [op] is in the table
    [vars] and carries the shape that the runtime inferred for it from the
    table [T]. *)
Definition shaped_at (infer : list VarDesc -> OpDesc -> string -> list Z)
    (T vars : list VarDesc) (op : OpDesc) : Prop :=
  forall slot v, In (slot, v) (op_outputs op) ->
    (v < List.length vars)%nat
    /\ var_shape (nth v vars d0) = infer T op slot.

(** [extended infer g g' op]: the graph [g'] is [g] with the outputs of
    [op] created as temporaries and [op] appended; the entries of the older
    variables are untouched and the outputs of [op] carry their inferred
    shapes. *)
Definition extended (infer : list VarDesc -> OpDesc -> string -> list Z)
    (g g' : Graph) (op : OpDesc) : Prop :=
  g_ops g' = g_ops g ++ [op] /\
  List.length (g_vars g')
  = (List.length (op_outputs op) + List.length (g_vars g))%nat /\
  first_output op = List.length (g_vars g) /\
  (forall v, (v < List.length (g_vars g))%nat ->
             nth v (g_vars g') d0 = nth v (g_vars g) d0) /\
  exists T,
    (forall x, (x < List.length (g_vars g))%nat ->
               nth x T d0 = nth x (g_vars g) d0)
    /\ shaped_at infer T (g_vars g') op.

(** [consistent infer vars op]: the outputs of [op] carry in [vars] the
    shapes inferred from a table that agrees with [vars] on every variable
    older than [op]. *)
Definition consistent (infer : list VarDesc -> OpDesc -> string -> list Z)
    (vars : list VarDesc) (op : OpDesc) : Prop :=
  exists T,
    (forall x, (x < first_output op)%nat -> nth x T d0 = nth x vars d0)
    /\ shaped_at infer T vars op.

(** The number of temporaries created for a list of operators. *)
Definition created (ops : list OpDesc) : nat :=
  List.length (flat_map op_outputs ops).

(** [grown infer g0 g ops]: the graph [g] is [g0] after the operators [ops]
    were appended one at a time. *)
Definition grown (infer : list VarDesc -> OpDesc -> string -> list Z)
    (g0 g : Graph) (ops : list OpDesc) : Prop :=
  g_ops g = g_ops g0 ++ ops /\
  List.length (g_vars g) = (created ops + List.length (g_vars g0))%nat /\
  (forall v, (v < List.length (g_vars g0))%nat ->
             nth v (g_vars g) d0 = nth v (g_vars g0) d0) /\
  Forall (consistent infer (g_vars g)) ops.

(** ** The straight-line program of [ssd_loss] *)

(** What [ssd_loss] reads back from the runtime while it builds the graph:
    shapes and dtypes of variables, which end up in the attributes of the
    [reshape] and [cast] operators. *)
Record Inferred : Type := mkInferred {
  gt_label_shape : list Z;
  probe_label_dtype : string;
  probe_label_dim : Z;
  final_label_dim : Z;
  final_label_dtype : string;
  conf_weight_dim : Z;
  location_dim : Z;
  bbox_dim : Z;
  loc_weight_dim : Z
}.

Definition reshape_op (x : Var) (shape : list Z) (out : Var) : OpDesc :=
  mkOpDesc "reshape" [("X", PVar x)] [("Out", out)]
    [("shape", PList (map PInt shape))].

Definition cast_op (x : Var) (in_dtype dtype : string) (out : Var) : OpDesc :=
  mkOpDesc "cast" [("X", PVar x)] [("Out", out)]
    [("in_dtype", PStr in_dtype); ("out_dtype", PStr dtype)].

Definition target_assign_op (x matched : Var) (neg mismatch : pyval)
    (out out_weight : Var) : OpDesc :=
  mkOpDesc "target_assign"
    [("X", PVar x); ("MatchIndices", PVar matched); ("NegIndices", neg)]
    [("Out", out); ("OutWeight", out_weight)]
    [("mismatch_value", mismatch)].

Definition softmax_op (logits label softmax loss : Var) : OpDesc :=
  mkOpDesc "softmax_with_cross_entropy"
    [("Logits", PVar logits); ("Label", PVar label)]
    [("Softmax", softmax); ("Loss", loss)] [].

Definition elementwise_op (type : string) (x y : pyval) (out : Var) : OpDesc :=
  mkOpDesc type [("X", x); ("Y", y)] [("Out", out)] [].

Definition mine_hard_examples_op (cls_loss matched dist : Var)
    (neg_pos_ratio sample_size : pyval) (neg updated : Var) : OpDesc :=
  mkOpDesc "mine_hard_examples"
    [("ClsLoss", PVar cls_loss); ("LocLoss", PNone);
     ("MatchIndices", PVar matched); ("MatchDist", PVar dist)]
    [("NegIndices", neg); ("UpdatedMatchIndices", updated)]
    [("neg_pos_ratio", neg_pos_ratio);
     ("neg_dist_threshold", neg_pos_ratio);
     ("mining_type", PStr "max_negative");
     ("sample_size", sample_size)].

(** The [k]-th variable handle created from a table of [n] entries. *)
Definition fresh (n k : nat) : Var := (k + n)%nat.

(** The operators that a complete run of [ssd_loss] appends, in order, when
    the first fresh variable handle is [n]. *)
Definition ssd_loss_trace (n : nat)
    (location confidence gt_box gt_label prior_box : Var)
    (prior_box_var background_label neg_pos_ratio loc_loss_weight
       conf_loss_weight sample_size : pyval)
    (num num_prior num_class : Z) (u : Inferred) : list OpDesc :=
  [ mkOpDesc "iou_similarity" [("X", PVar gt_box); ("Y", PVar prior_box)]
      [("Out", fresh n 0)] [];
    mkOpDesc "bipartite_match" [("DistMat", PVar (fresh n 0))]
      [("ColToRowMatchIndices", fresh n 1); ("ColToRowMatchDist", fresh n 2)] [];
    reshape_op gt_label (gt_label_shape u ++ [1]) (fresh n 3);
    target_assign_op (fresh n 3) (fresh n 1) PNone background_label (fresh n 4) (fresh n 5);
    reshape_op confidence [-1; num_class] (fresh n 6);
    cast_op (fresh n 4) (probe_label_dtype u) "int64" (fresh n 7);
    reshape_op (fresh n 7) [-1; probe_label_dim u] (fresh n 8);
    softmax_op (fresh n 6) (fresh n 8) (fresh n 9) (fresh n 10);
    reshape_op (fresh n 10) [num; num_prior] (fresh n 11);
    mine_hard_examples_op (fresh n 11) (fresh n 1) (fresh n 2) neg_pos_ratio sample_size
      (fresh n 12) (fresh n 13);
    mkOpDesc "box_coder"
      [("PriorBox", PVar prior_box); ("PriorBoxVar", prior_box_var);
       ("TargetBox", PVar gt_box)]
      [("OutputBox", fresh n 14)] [("code_type", PStr "encode_center_size")];
    target_assign_op (fresh n 14) (fresh n 13) PNone background_label
      (fresh n 15) (fresh n 16);
    target_assign_op (fresh n 3) (fresh n 13) (PVar (fresh n 12)) background_label
      (fresh n 17) (fresh n 18);
    reshape_op (fresh n 17) [-1; final_label_dim u] (fresh n 19);
    cast_op (fresh n 19) (final_label_dtype u) "int64" (fresh n 20);
    softmax_op (fresh n 6) (fresh n 20) (fresh n 21) (fresh n 22);
    reshape_op (fresh n 18) [-1; conf_weight_dim u] (fresh n 23);
    elementwise_op "elementwise_mul" (PVar (fresh n 22)) (PVar (fresh n 23)) (fresh n 24);
    reshape_op location [-1; location_dim u] (fresh n 25);
    reshape_op (fresh n 15) [-1; bbox_dim u] (fresh n 26);
    mkOpDesc "smooth_l1_loss" [("X", PVar (fresh n 25)); ("Y", PVar (fresh n 26))]
      [("Diff", fresh n 27); ("Out", fresh n 28)] [];
    reshape_op (fresh n 16) [-1; loc_weight_dim u] (fresh n 29);
    elementwise_op "elementwise_mul" (PVar (fresh n 28)) (PVar (fresh n 29)) (fresh n 30);
    elementwise_op "elementwise_mul" conf_loss_weight (PVar (fresh n 24)) (fresh n 31);
    elementwise_op "elementwise_mul" loc_loss_weight (PVar (fresh n 30)) (fresh n 32);
    elementwise_op "elementwise_add" (PVar (fresh n 31)) (PVar (fresh n 32)) (fresh n 33)
  ].

(** The operator kinds of a complete run, in order. *)
Definition ssd_loss_kinds : list string :=
  [ "iou_similarity"; "bipartite_match"; "reshape"; "target_assign";
    "reshape"; "cast"; "reshape"; "softmax_with_cross_entropy"; "reshape";
    "mine_hard_examples"; "box_coder"; "target_assign"; "target_assign";
    "reshape"; "cast"; "softmax_with_cross_entropy"; "reshape";
    "elementwise_mul"; "reshape"; "reshape"; "smooth_l1_loss"; "reshape";
    "elementwise_mul"; "elementwise_mul"; "elementwise_mul";
    "elementwise_add" ].

Fixpoint is_prefix (l1 l2 : list string) : bool :=
  match l1, l2 with
  | [], _ => true
  | x :: l1', y :: l2' => String.eqb x y && is_prefix l1' l2'
  | _ :: _, [] => false
  end.

(** Reshapes and casts only re-lay out a tensor between two stages. *)
Definition plumbing (o : OpDesc) : bool :=
  String.eqb (op_type o) "reshape" || String.eqb (op_type o) "cast".

Definition stages (ops : list OpDesc) : list OpDesc :=
  filter (fun o => negb (plumbing o)) ops.

(** The stages of a complete run of [ssd_loss], in order: the operators
    left when the reshapes and casts between them are put aside. *)
Definition ssd_loss_stages (n : nat) (gt_box prior_box : Var)
    (prior_box_var background_label neg_pos_ratio loc_loss_weight
       conf_loss_weight sample_size : pyval) : list OpDesc :=
  [ (* IOU similarity *)
    mkOpDesc "iou_similarity" [("X", PVar gt_box); ("Y", PVar prior_box)]
      [("Out", fresh n 0)] [];
    (* bipartite matcher *)
    mkOpDesc "bipartite_match" [("DistMat", PVar (fresh n 0))]
      [("ColToRowMatchIndices", fresh n 1); ("ColToRowMatchDist", fresh n 2)]
      [];
    (* target assigner, classification probe *)
    target_assign_op (fresh n 3) (fresh n 1) PNone background_label
      (fresh n 4) (fresh n 5);
    mkOpDesc "softmax_with_cross_entropy"
      [("Logits", PVar (fresh n 6)); ("Label", PVar (fresh n 8))]
      [("Softmax", fresh n 9); ("Loss", fresh n 10)] [];
    (* hard negative miner *)
    mine_hard_examples_op (fresh n 11) (fresh n 1) (fresh n 2) neg_pos_ratio
      sample_size (fresh n 12) (fresh n 13);
    (* box coder *)
    mkOpDesc "box_coder"
      [("PriorBox", PVar prior_box); ("PriorBoxVar", prior_box_var);
       ("TargetBox", PVar gt_box)]
      [("OutputBox", fresh n 14)] [("code_type", PStr "encode_center_size")];
    (* target assigner, regression then classification *)
    target_assign_op (fresh n 14) (fresh n 13) PNone background_label
      (fresh n 15) (fresh n 16);
    target_assign_op (fresh n 3) (fresh n 13) (PVar (fresh n 12))
      background_label (fresh n 17) (fresh n 18);
    (* loss composer *)
    softmax_op (fresh n 6) (fresh n 20) (fresh n 21) (fresh n 22);
    elementwise_op "elementwise_mul" (PVar (fresh n 22)) (PVar (fresh n 23))
      (fresh n 24);
    mkOpDesc "smooth_l1_loss"
      [("X", PVar (fresh n 25)); ("Y", PVar (fresh n 26))]
      [("Diff", fresh n 27); ("Out", fresh n 28)] [];
    elementwise_op "elementwise_mul" (PVar (fresh n 28)) (PVar (fresh n 29))
      (fresh n 30);
    elementwise_op "elementwise_mul" conf_loss_weight (PVar (fresh n 24))
      (fresh n 31);
    elementwise_op "elementwise_mul" loc_loss_weight (PVar (fresh n 30))
      (fresh n 32);
    elementwise_op "elementwise_add" (PVar (fresh n 31)) (PVar (fresh n 32))
      (fresh n 33) ].

(** ** The loss returned by [ssd_loss] *)

(** [produces ops v type slot ins]: the variable [v] is the output [slot]
    of an operator of kind [type] among [ops], whose inputs are [ins]. *)
Definition produces (ops : list OpDesc) (v : Var) (type slot : string)
    (ins : list (string * pyval)) : Prop :=
  exists op,
    In op ops /\ op_type op = type /\ op_inputs op = ins
    /\ output_of slot op = Some v.

(** Operator kinds that collapse a tensor along its dimensions. *)
Definition is_reduction (type : string) : bool :=
  String.prefix "reduce_" type || String.eqb type "mean"
  || String.eqb type "sum".

(** A Python number, as opposed to a graph variable. *)
Definition is_number (v : pyval) : bool :=
  match v with
  | PInt _ | PFloat _ | PBool _ => true
  | _ => false
  end.

(** The number of elements of a tensor of the given shape. *)
Definition numel (shape : list Z) : Z := fold_right Z.mul 1 shape.

(** Modelled from the spec: the shape inference of the runtime is missing
    from the sources; the statements about shapes assume of it what the
    description of the loss composer says.  A reshape to [[-1; d]] of a
    tensor with known dimensions keeps the number of elements ("confidence
    scores reshaped to 2-D [batch*num_priors, num_classes]"). *)
Definition reshape_rule (infer : list VarDesc -> OpDesc -> string -> list Z)
  : Prop :=
  forall T x d out,
    Forall (fun z => 0 < z) (var_shape (nth x T d0)) -> 0 < d ->
    infer T (reshape_op x [-1; d] out) "Out"
    = [numel (var_shape (nth x T d0)) / d; d].

(** Modelled from the spec: the cross-entropy of a 2-D tensor of logits "is
    already a per-row scalar". *)
Definition softmax_rule (infer : list VarDesc -> OpDesc -> string -> list Z)
  : Prop :=
  forall T logits label softmax loss r c,
    var_shape (nth logits T d0) = [r; c] ->
    infer T (softmax_op logits label softmax loss) "Loss" = [r; 1].

(** Modelled from the spec: an elementwise operator on a column of per-row
    scalars yields such a column, also when its left operand is a Python
    number. *)
Definition elementwise_rule
    (infer : list VarDesc -> OpDesc -> string -> list Z) : Prop :=
  (forall T type x y out r,
      type = "elementwise_mul" \/ type = "elementwise_add" ->
      var_shape (nth x T d0) = [r; 1] ->
      infer T (elementwise_op type (PVar x) y out) "Out" = [r; 1])
  /\ (forall T type c y out r,
        type = "elementwise_mul" \/ type = "elementwise_add" ->
        is_number c = true ->
        var_shape (nth y T d0) = [r; 1] ->
        infer T (elementwise_op type c (PVar y) out) "Out" = [r; 1]).

(** ** The operators of [detection_output] *)

Definition multiclass_nms_op (scores bboxes : Var)
    (nms_threshold nms_top_k keep_top_k score_threshold : pyval) (out : Var)
  : OpDesc :=
  mkOpDesc "multiclass_nms"
    [("Scores", PVar scores); ("BBoxes", PVar bboxes)]
    [("Out", out)]
    [("background_label", PInt 0);
     ("nms_threshold", nms_threshold);
     ("nms_top_k", nms_top_k);
     ("keep_top_k", keep_top_k);
     ("score_threshold", score_threshold);
     ("nms_eta", PFloat 1.0)].

(** ** The arguments and operators of [prior_box] *)

(** A per-layer argument that is supplied (truthy) but is not a list with
    one entry per input. *)
Definition bad_layer_arg (v : pyval) (num_layer : nat) : bool :=
  truthy v && negb (is_list_of_len v num_layer).

(** A [prior_box] operator whose two step attributes are [0.0]. *)
Definition zero_step_prior_box (op : OpDesc) : Prop :=
  op_type op = "prior_box"
  /\ attr_of "step_w" op = Some (PFloat 0.0)
  /\ attr_of "step_h" op = Some (PFloat 0.0).

(** The [prior_box] operators among [ops]. *)
Definition prior_box_ops (ops : list OpDesc) : list OpDesc :=
  filter (fun op => String.eqb (op_type op) "prior_box") ops.

(** [appends P m]: whatever the graph, the layer [m] only appends
    operators that satisfy [P], whether it returns or raises. *)
Definition appends (P : OpDesc -> Prop) {A} (m : M A) : Prop :=
  forall g, exists new, g_ops (fst (m g)) = g_ops g ++ new /\ Forall P new.

(** ** A sample runtime, for running the layers on concrete graphs *)

(** A shape inference that follows the three rules above and gives every
    other output the shape [[2; 3; 4; 4]]; no shape it infers is empty. *)
Definition sample_infer_shape (vars : list VarDesc) (o : OpDesc)
    (slot : string) : list Z :=
  if String.eqb (op_type o) "reshape" then
    match input_of "X" o, attr_of "shape" o with
    | Some (PVar x), Some (PList [PInt _; PInt d]) =>
        let s := var_shape (nth x vars d0) in
        if forallb (Z.ltb 0) s && (0 <? d) then [numel s / d; d] else [1; 1]
    | _, _ => [1; 1]
    end
  else if String.eqb (op_type o) "softmax_with_cross_entropy" then
    match input_of "Logits" o with
    | Some (PVar logits) =>
        match var_shape (nth logits vars d0) with
        | [r; _] => [r; 1]
        | _ => [1; 1]
        end
    | _ => [1; 1]
    end
  else if String.eqb (op_type o) "elementwise_mul"
          || String.eqb (op_type o) "elementwise_add" then
    match input_of "X" o, input_of "Y" o with
    | Some (PVar x), _ =>
        match var_shape (nth x vars d0) with [] => [1] | s => s end
    | _, Some (PVar y) =>
        match var_shape (nth y vars d0) with [] => [1] | s => s end
    | _, _ => [1]
    end
  else [2; 3; 4; 4].

(** A block that already holds the six variables of a detection network:
    location, confidence, ground-truth boxes and labels, prior boxes and
    their variances, for a batch of two images and ten priors. *)
Definition sample_graph : Graph :=
  mkGraph
    [mkVarDesc "float32" [2; 10; 4];
     mkVarDesc "float32" [2; 10; 21];
     mkVarDesc "float32" [5; 4];
     mkVarDesc "float32" [5; 1];
     mkVarDesc "float32" [10; 4];
     mkVarDesc "float32" [10; 4]]
    [].

(** The same block with a confidence of two dimensions only. *)
Definition flat_graph : Graph :=
  mkGraph
    [mkVarDesc "float32" [2; 10; 4];
     mkVarDesc "float32" [20; 21];
     mkVarDesc "float32" [5; 4];
     mkVarDesc "float32" [5; 1];
     mkVarDesc "float32" [10; 4];
     mkVarDesc "float32" [10; 4]]
    [].
(** * Properties of the graph construction *)

(** ** The variable table *)

Lemma length_list_set {A} (l : list A) i x :
  List.length (list_set l i x) = List.length l.
Proof.
  revert i; induction l as [|y l IH]; intros [|i]; simpl; auto.
Qed.

Lemma nth_list_set_same {A} (l : list A) i x d :
  (i < List.length l)%nat -> nth i (list_set l i x) d = x.
Proof.
  revert i; induction l as [|y l IH]; intros [|i] H; simpl in *;
    try lia; auto.
  apply IH; lia.
Qed.

Lemma nth_list_set_other {A} (l : list A) i j x d :
  i <> j -> nth j (list_set l i x) d = nth j l d.
Proof.
  revert i j; induction l as [|y l IH]; intros [|i] [|j] H; simpl;
    try congruence; auto.
Qed.

Lemma length_set_shape vars v s :
  List.length (set_shape vars v s) = List.length vars.
Proof.
  unfold set_shape. destruct (nth_error vars v); auto using length_list_set.
Qed.

Lemma nth_set_shape_other vars v j s :
  v <> j -> nth j (set_shape vars v s) d0 = nth j vars d0.
Proof.
  intros H. unfold set_shape.
  destruct (nth_error vars v); auto using nth_list_set_other.
Qed.

Lemma shape_set_shape_same vars v s :
  (v < List.length vars)%nat -> var_shape (nth v (set_shape vars v s) d0) = s.
Proof.
  intros H. unfold set_shape.
  destruct (nth_error vars v) eqn:E.
  - rewrite nth_list_set_same by assumption. reflexivity.
  - apply nth_error_None in E. lia.
Qed.

(** ** The monad *)

Lemma bind_ok {A B} (m : M A) (k : A -> M B) g g' a :
  m g = (g', Ok a) -> bind m k g = k a g'.
Proof. intros H. unfold bind. rewrite H. reflexivity. Qed.

Lemma bind_raise {A B} (m : M A) (k : A -> M B) g g' e :
  m g = (g', Raise e) -> bind m k g = (g', Raise e).
Proof. intros H. unfold bind. rewrite H. reflexivity. Qed.

Lemma dtype_of_run v g : dtype_of v g = (g, Ok (var_dtype (nth v (g_vars g) d0))).
Proof. reflexivity. Qed.

Lemma shape_of_run v g : shape_of v g = (g, Ok (var_shape (nth v (g_vars g) d0))).
Proof. reflexivity. Qed.

Lemma app_two {A} (l : list A) a b : (l ++ [a]) ++ [b] = l ++ [a; b].
Proof. rewrite <- app_assoc. reflexivity. Qed.

Lemma length_snoc {A} (l : list A) a : List.length (l ++ [a]) = S (List.length l).
Proof. rewrite length_app. simpl. lia. Qed.

Ltac run_layer :=
  unfold generated_layer, dtype_of, shape_of, get_var;
  unfold bind, create_tmp_variable, append_op, ret;
  cbn [fst snd fold_left g_vars g_ops];
  rewrite ?length_snoc, ?app_two;
  reflexivity.

Section Runs.

Variable infer_shape : list VarDesc -> OpDesc -> string -> list Z.

(** ** One operator at a time *)

Lemma extended_one g dt ty ins slot attrs :
  let n := List.length (g_vars g) in
  let op := mkOpDesc ty ins [(slot, n)] attrs in
  let T := g_vars g ++ [mkVarDesc dt []] in
  extended infer_shape g
    (mkGraph (set_shape T n (infer_shape T op slot)) (g_ops g ++ [op])) op.
Proof.
  intros n op T. unfold extended; simpl.
  assert (HT : List.length T = S n).
  { unfold T, n. rewrite length_app. simpl. lia. }
  split; [reflexivity|]. split; [now rewrite length_set_shape|].
  split; [reflexivity|]. split.
  - intros v Hv. rewrite nth_set_shape_other by (unfold n; lia).
    unfold T. apply app_nth1. assumption.
  - exists T. split.
    + intros x Hx. unfold T. apply app_nth1. assumption.
    + intros slot' v [H|[]]. inversion H; subst slot' v.
      rewrite length_set_shape. split; [lia|].
      apply shape_set_shape_same. lia.
Qed.

Lemma extended_two g dt1 dt2 ty ins slot1 slot2 attrs :
  let n := List.length (g_vars g) in
  let op := mkOpDesc ty ins [(slot1, n); (slot2, S n)] attrs in
  let T := g_vars g ++ [mkVarDesc dt1 []; mkVarDesc dt2 []] in
  extended infer_shape g
    (mkGraph
       (set_shape (set_shape T n (infer_shape T op slot1))
          (S n) (infer_shape T op slot2))
       (g_ops g ++ [op]))
    op.
Proof.
  intros n op T. unfold extended; simpl.
  assert (HT : List.length T = S (S n)).
  { unfold T, n. rewrite length_app. simpl. lia. }
  split; [reflexivity|]. split; [now rewrite !length_set_shape|].
  split; [reflexivity|]. split.
  - intros v Hv. rewrite !nth_set_shape_other by (unfold n; lia).
    unfold T. apply app_nth1. assumption.
  - exists T. split.
    + intros x Hx. unfold T. apply app_nth1. assumption.
    + intros slot' v [H|[H|[]]]; inversion H; subst slot' v;
        rewrite !length_set_shape; (split; [lia|]).
      * rewrite nth_set_shape_other by lia.
        apply shape_set_shape_same. lia.
      * apply shape_set_shape_same. rewrite length_set_shape. lia.
Qed.

Lemma generated_layer_run ty dt ins slot attrs g :
  exists g',
    generated_layer infer_shape ty dt ins slot attrs g
    = (g', Ok (List.length (g_vars g)))
    /\ extended infer_shape g g'
         (mkOpDesc ty ins [(slot, List.length (g_vars g))] attrs).
Proof.
  eexists. split; [run_layer | apply extended_one].
Qed.

Lemma iou_similarity_run x y g :
  exists g',
    iou_similarity infer_shape x y g = (g', Ok (List.length (g_vars g)))
    /\ extended infer_shape g g'
         (mkOpDesc "iou_similarity" [("X", PVar x); ("Y", PVar y)]
            [("Out", List.length (g_vars g))] []).
Proof.
  eexists. split; [unfold iou_similarity; run_layer | apply extended_one].
Qed.

Lemma box_coder_run prior_box prior_box_var target_box code_type g :
  exists g',
    box_coder infer_shape prior_box prior_box_var target_box code_type g
    = (g', Ok (List.length (g_vars g)))
    /\ extended infer_shape g g'
         (mkOpDesc "box_coder"
            [("PriorBox", PVar prior_box); ("PriorBoxVar", prior_box_var);
             ("TargetBox", PVar target_box)]
            [("OutputBox", List.length (g_vars g))]
            [("code_type", PStr code_type)]).
Proof.
  eexists. split; [unfold box_coder; run_layer | apply extended_one].
Qed.

Lemma reshape_run x shape g :
  exists g',
    reshape infer_shape x shape g = (g', Ok (List.length (g_vars g)))
    /\ extended infer_shape g g'
         (reshape_op x shape (List.length (g_vars g))).
Proof.
  eexists. split; [unfold reshape; run_layer | apply extended_one].
Qed.

Lemma cast_run x dtype g :
  exists g',
    cast infer_shape x dtype g = (g', Ok (List.length (g_vars g)))
    /\ extended infer_shape g g'
         (cast_op x (var_dtype (nth x (g_vars g) d0)) dtype
            (List.length (g_vars g))).
Proof.
  eexists. split; [unfold cast; run_layer | apply extended_one].
Qed.

Lemma concat_run xs g :
  exists g',
    concat infer_shape xs g = (g', Ok (List.length (g_vars g)))
    /\ extended infer_shape g g'
         (mkOpDesc "concat" [("X", PList (map PVar xs))]
            [("Out", List.length (g_vars g))] [("axis", PInt 0)]).
Proof.
  destruct xs; eexists;
    (split; [unfold concat; run_layer | apply extended_one]).
Qed.

Lemma elementwise_run type x y like g :
  exists g',
    elementwise infer_shape type x y like g
    = (g', Ok (List.length (g_vars g)))
    /\ extended infer_shape g g'
         (elementwise_op type x y (List.length (g_vars g))).
Proof.
  eexists. split; [unfold elementwise; run_layer | apply extended_one].
Qed.

Lemma softmax_with_cross_entropy_run logits label g :
  exists g',
    softmax_with_cross_entropy infer_shape logits label g
    = (g', Ok (S (List.length (g_vars g))))
    /\ extended infer_shape g g'
         (softmax_op logits label (List.length (g_vars g))
            (S (List.length (g_vars g)))).
Proof.
  eexists.
  split; [unfold softmax_with_cross_entropy; run_layer | apply extended_two].
Qed.

Lemma smooth_l1_run x y g :
  exists g',
    smooth_l1 infer_shape x y g = (g', Ok (S (List.length (g_vars g))))
    /\ extended infer_shape g g'
         (mkOpDesc "smooth_l1_loss" [("X", PVar x); ("Y", PVar y)]
            [("Diff", List.length (g_vars g));
             ("Out", S (List.length (g_vars g)))] []).
Proof.
  eexists. split; [unfold smooth_l1; run_layer | apply extended_two].
Qed.

Lemma bipartite_match_run dist_matrix name g :
  exists g',
    bipartite_match infer_shape dist_matrix name g
    = (g', Ok (List.length (g_vars g), S (List.length (g_vars g))))
    /\ extended infer_shape g g'
         (mkOpDesc "bipartite_match" [("DistMat", PVar dist_matrix)]
            [("ColToRowMatchIndices", List.length (g_vars g));
             ("ColToRowMatchDist", S (List.length (g_vars g)))] []).
Proof.
  eexists. split; [unfold bipartite_match; run_layer | apply extended_two].
Qed.

Lemma target_assign_run input matched_indices negative_indices mismatch_value
    name g :
  exists g',
    target_assign infer_shape input matched_indices negative_indices
      mismatch_value name g
    = (g', Ok (List.length (g_vars g), S (List.length (g_vars g))))
    /\ extended infer_shape g g'
         (target_assign_op input matched_indices negative_indices
            mismatch_value (List.length (g_vars g))
            (S (List.length (g_vars g)))).
Proof.
  eexists. split; [unfold target_assign; run_layer | apply extended_two].
Qed.

(** The inline [mine_hard_examples] step of [ssd_loss]: two temporaries and
    the operator. *)
Lemma mine_hard_examples_run {A} h (v : Var) ins attrs (k : Var -> Var -> M A) g :
  exists g',
    bind (create_tmp_variable h "int32") (fun neg =>
    bind (dtype_of v) (fun dtype =>
    bind (create_tmp_variable h dtype) (fun upd =>
    bind (append_op infer_shape h "mine_hard_examples" ins
            [("NegIndices", neg); ("UpdatedMatchIndices", upd)] attrs)
         (fun _ => k neg upd)))) g
    = k (List.length (g_vars g)) (S (List.length (g_vars g))) g'
    /\ extended infer_shape g g'
         (mkOpDesc "mine_hard_examples" ins
            [("NegIndices", List.length (g_vars g));
             ("UpdatedMatchIndices", S (List.length (g_vars g)))] attrs).
Proof.
  eexists. split.
  - unfold bind at 1 2 3 4.
    unfold create_tmp_variable, append_op, dtype_of, get_var, bind, ret.
    cbn [fst snd fold_left g_vars g_ops].
    rewrite ?length_snoc, ?app_two. reflexivity.
  - apply extended_two.
Qed.

Lemma reshape_to_2d_run var g :
  (exists d rest g',
      rev (var_shape (nth var (g_vars g) d0)) = d :: rest
      /\ __reshape_to_2d infer_shape var g = (g', Ok (List.length (g_vars g)))
      /\ extended infer_shape g g'
           (reshape_op var [-1; d] (List.length (g_vars g))))
  \/ (var_shape (nth var (g_vars g) d0) = []
      /\ __reshape_to_2d infer_shape var g
         = (g, Raise (IndexError "tuple index out of range"))).
Proof.
  unfold __reshape_to_2d, last_dim, shape_of, get_var, bind, ret, raise.
  cbn [fst snd].
  destruct (rev (var_shape (nth var (g_vars g) d0))) as [|d rest] eqn:E.
  - right. split.
    + apply (f_equal (@rev Z)) in E. rewrite rev_involutive in E. exact E.
    + reflexivity.
  - left. destruct (reshape_run var [-1; d] g) as (g' & Hrun & Hext).
    exists d, rest, g'. split; [reflexivity|]. split; [exact Hrun|].
    exact Hext.
Qed.

(** ** Growing a graph *)

Lemma grown_init g : grown infer_shape g g [].
Proof.
  unfold grown. rewrite app_nil_r. repeat split; auto.
Qed.

Lemma consistent_extended g g' op o :
  extended infer_shape g g' op ->
  consistent infer_shape (g_vars g) o ->
  consistent infer_shape (g_vars g') o.
Proof.
  intros (_ & Hlen & _ & Hframe & _) (T & Hagree & Hshaped).
  exists T. split.
  - intros x Hx. rewrite Hframe; [auto|].
    unfold first_output in Hx.
    destruct (op_outputs o) as [|[s v] outs] eqn:E; [lia|].
    destruct (Hshaped s v) as [Hv _]; [rewrite E; now left | lia].
  - intros slot v Hin. destruct (Hshaped slot v Hin) as [Hv Hs].
    split; [lia|]. rewrite Hframe by assumption. exact Hs.
Qed.

Lemma extended_consistent g g' op :
  extended infer_shape g g' op -> consistent infer_shape (g_vars g') op.
Proof.
  intros (_ & _ & Hfirst & Hframe & T & Hagree & Hshaped).
  exists T. split; [|assumption].
  intros x Hx. rewrite Hfirst in Hx.
  rewrite Hframe by assumption. auto.
Qed.

Lemma created_snoc ops op :
  created (ops ++ [op]) = (List.length (op_outputs op) + created ops)%nat.
Proof.
  unfold created. rewrite flat_map_app, length_app. simpl.
  rewrite app_nil_r. lia.
Qed.

Lemma grown_step g0 g g' ops op :
  grown infer_shape g0 g ops ->
  extended infer_shape g g' op ->
  grown infer_shape g0 g' (ops ++ [op]).
Proof.
  intros (Hops & Hlen & Hframe & Hcons) Hext.
  pose proof Hext as (Hops' & Hlen' & _ & Hframe' & _).
  unfold grown. repeat split.
  - rewrite Hops', Hops, app_assoc. reflexivity.
  - rewrite Hlen', Hlen, created_snoc. lia.
  - intros v Hv. rewrite Hframe' by lia. auto.
  - apply Forall_app. split.
    + eapply Forall_impl; [|exact Hcons].
      intros o. apply consistent_extended with (op := op). exact Hext.
    + constructor; [|constructor]. eapply extended_consistent; eauto.
Qed.

Lemma grown_length g0 g ops :
  grown infer_shape g0 g ops ->
  List.length (g_vars g) = (created ops + List.length (g_vars g0))%nat.
Proof. intros (_ & H & _). exact H. Qed.

Lemma grown_frame g0 g ops v :
  grown infer_shape g0 g ops ->
  (v < List.length (g_vars g0))%nat ->
  nth v (g_vars g) d0 = nth v (g_vars g0) d0.
Proof. intros (_ & _ & H & _). apply H. Qed.

Lemma grown_ops g0 g ops :
  grown infer_shape g0 g ops -> g_ops g = g_ops g0 ++ ops.
Proof. intros (H & _). exact H. Qed.

Lemma grown_consistent g0 g ops :
  grown infer_shape g0 g ops -> Forall (consistent infer_shape (g_vars g)) ops.
Proof. intros (_ & _ & _ & H). exact H. Qed.

(** A handle with a non-empty shape is a variable of the table. *)
Lemma shaped_in_table vars v :
  var_shape (nth v vars d0) <> [] -> (v < List.length vars)%nat.
Proof.
  intros H. destruct (Nat.lt_ge_cases v (List.length vars)) as [|Hge]; auto.
  rewrite nth_overflow in H by assumption. now elim H.
Qed.

(** ** Running [ssd_loss] *)

Section SsdLossRun.

Variables location confidence gt_box gt_label prior_box : Var.
Variables prior_box_var background_label overlap_threshold neg_pos_ratio
  neg_overlap loc_loss_weight conf_loss_weight : pyval.
Variable match_type : string.
Variable sample_size : pyval.
Variables num num_prior num_class : Z.
Variable g0 : Graph.

Hypothesis confidence_shape :
  var_shape (nth confidence (g_vars g0) d0) = [num; num_prior; num_class].

Let n := List.length (g_vars g0).

Let trace (u : Inferred) : list OpDesc :=
  ssd_loss_trace n location confidence gt_box gt_label prior_box
    prior_box_var background_label neg_pos_ratio loc_loss_weight
    conf_loss_weight sample_size num num_prior num_class u.

Let post (res : Graph * result Var) : Prop :=
  exists new u k,
    grown infer_shape g0 (fst res) new
    /\ new = firstn k (trace u)
    /\ ((snd res = Ok (fresh n 33) /\ k = 26%nat)
        \/ (snd res = Raise (IndexError "tuple index out of range")
            /\ (k < 26)%nat
            /\ exists v,
                 var_shape (nth v (g_vars (fst res)) d0) = []
                 /\ (v = location
                     \/ In v (map snd (flat_map op_outputs new))))).

Lemma confidence_in_graph : (confidence < n)%nat.
Proof.
  apply shaped_in_table. rewrite confidence_shape. discriminate.
Qed.

Ltac advance Hrun Hext :=
  lazymatch goal with
  | HI : grown _ _ ?g ?ops |- _ =>
      let k := eval cbv in (created ops) in
      replace (List.length (g_vars g)) with (fresh n k) in Hrun, Hext
        by (rewrite (grown_length _ _ _ HI); reflexivity);
      first [ rewrite (bind_ok _ _ _ _ _ Hrun) | rewrite Hrun ];
      cbv beta iota;
      let HI' := fresh "HI" in
      pose proof (grown_step _ _ _ _ _ HI Hext) as HI';
      cbn [app] in HI';
      clear HI Hrun Hext
  end.

Ltac step L :=
  lazymatch goal with
  | HI : grown _ _ ?g ?ops |- _ =>
      let g' := fresh "g" in
      let Hrun := fresh "Hrun" in
      let Hext := fresh "Hext" in
      destruct (L g) as (g' & Hrun & Hext);
      advance Hrun Hext
  end.

Ltac in_outputs :=
  cbn [flat_map op_outputs map snd app reshape_op cast_op target_assign_op
         softmax_op elementwise_op mine_hard_examples_op];
  solve [repeat first [left; reflexivity | right]].

(** A reshape to two dimensions either goes through or stops the run with
    an [IndexError]; [where_ v] shows that [v] is [location] or an output. *)
Ltac step_2d v where_ :=
  lazymatch goal with
  | HI : grown _ _ ?g ?ops |- _ =>
      let g' := fresh "g" in
      let d := fresh "d" in
      let Hrun := fresh "Hrun" in
      let Hext := fresh "Hext" in
      let rest := fresh "rest" in
      let Hd := fresh "Hd" in
      let Hempty := fresh "Hempty" in
      destruct (reshape_to_2d_run v g)
        as [(d & rest & g' & Hd & Hrun & Hext) | [Hempty Hrun]];
      [ clear Hd; advance Hrun Hext
      | rewrite (bind_raise _ _ _ _ _ Hrun);
        let k := eval cbv in (List.length ops) in
        exists ops; eexists (mkInferred _ _ _ _ _ _ _ _ _); exists k;
        split; [exact HI|];
        split; [reflexivity|];
        right; split; [reflexivity|];
        split; [cbv; lia|];
        exists v; split; [exact Hempty|]; where_ ]
  end.

Ltac auto_step :=
  lazymatch goal with
  | |- post (bind (iou_similarity _ ?x ?y) _ _) =>
      step (iou_similarity_run x y)
  | |- post (bind (bipartite_match _ ?d ?nm) _ _) =>
      step (bipartite_match_run d nm)
  | |- post (bind (reshape _ ?x ?s) _ _) => step (reshape_run x s)
  | |- post (bind (target_assign _ ?a ?b ?c ?d ?e) _ _) =>
      step (target_assign_run a b c d e)
  | |- post (bind (cast _ ?x ?dt) _ _) => step (cast_run x dt)
  | |- post (bind (softmax_with_cross_entropy _ ?a ?b) _ _) =>
      step (softmax_with_cross_entropy_run a b)
  | |- post (bind (box_coder _ ?a ?b ?c ?d) _ _) =>
      step (box_coder_run a b c d)
  | |- post (bind (smooth_l1 _ ?a ?b) _ _) => step (smooth_l1_run a b)
  | |- post (bind (elementwise _ ?ty ?a ?b ?c) _ _) =>
      step (elementwise_run ty a b c)
  | |- post (bind (__reshape_to_2d _ ?v) _ _) =>
      step_2d v ltac:(first [left; reflexivity | right; in_outputs])
  | |- post (bind (create_tmp_variable ?h "int32")
                   (fun neg =>
                      bind (dtype_of ?v)
                        (fun dtype =>
                           bind (create_tmp_variable _ dtype)
                             (fun upd =>
                                bind (append_op _ _ _ ?ins _ ?attrs)
                                  (fun _ => @?K neg upd)))) _) =>
      step (mine_hard_examples_run h v ins attrs K)
  | |- post (bind (shape_of ?v) _ ?g) =>
      rewrite (bind_ok _ _ _ _ _ (shape_of_run v g)); cbv beta iota
  end.

Lemma ssd_loss_post :
  post (ssd_loss infer_shape location confidence gt_box gt_label prior_box
          prior_box_var background_label overlap_threshold neg_pos_ratio
          neg_overlap loc_loss_weight conf_loss_weight match_type
          "max_negative" sample_size g0).
Proof.
  pose proof confidence_in_graph as Hconf.
  pose proof (grown_init g0) as HI.
  unfold ssd_loss. rewrite String.eqb_refl. cbn [negb].
  rewrite (bind_ok _ _ _ _ _ (shape_of_run confidence g0)).
  rewrite confidence_shape. cbv beta iota.
  unfold var_mul, scalar_mul, var_add.
  repeat auto_step.
  (* the confidence is reshaped: its last dimension is known *)
  destruct (reshape_to_2d_run confidence g3)
    as [(d & rest & g4 & Hd & Hrun & Hext) | [Hempty _]];
    rewrite (grown_frame _ _ _ _ HI Hconf), confidence_shape in *;
    [|discriminate].
  cbn [rev app] in Hd. injection Hd as Hd _. subst d.
  advance Hrun Hext.
  repeat auto_step.
  (* the last operator *)
  lazymatch goal with
  | HI : grown _ _ ?g _ |- post (elementwise _ ?ty ?a ?b ?c ?g) =>
      destruct (elementwise_run ty a b c g) as (g' & Hrun & Hext)
  end.
  advance Hrun Hext.
  eexists. eexists (mkInferred _ _ _ _ _ _ _ _ _). exists 26%nat.
  split; [exact HI|]. split; [reflexivity|].
  left. split; reflexivity.
  Unshelve. all: first [exact 0 | exact EmptyString].
Qed.

(** The run of [ssd_loss] on a rank-3 confidence: the operators appended
    are an initial segment of the straight-line program, the whole of it
    when the call returns; the call can only stop early with an
    [IndexError], on a variable whose shape is empty. *)
Lemma ssd_loss_run :
  exists g' r new u k,
    ssd_loss infer_shape location confidence gt_box gt_label prior_box
      prior_box_var background_label overlap_threshold neg_pos_ratio
      neg_overlap loc_loss_weight conf_loss_weight match_type
      "max_negative" sample_size g0 = (g', r)
    /\ grown infer_shape g0 g' new
    /\ new = firstn k
               (ssd_loss_trace (List.length (g_vars g0)) location confidence
                  gt_box gt_label prior_box prior_box_var background_label
                  neg_pos_ratio loc_loss_weight conf_loss_weight sample_size
                  num num_prior num_class u)
    /\ ((r = Ok (fresh (List.length (g_vars g0)) 33) /\ k = 26%nat)
        \/ (r = Raise (IndexError "tuple index out of range")
            /\ (k < 26)%nat
            /\ exists v,
                 var_shape (nth v (g_vars g') d0) = []
                 /\ (v = location
                     \/ In v (map snd (flat_map op_outputs new))))).
Proof.
  destruct ssd_loss_post as (new & u & k & HI & Hnew & H).
  destruct (ssd_loss _ _ _ _ _ _ _ _ _ _ _ _ _ _ _ _ g0) as [g' r].
  exists g', r, new, u, k. auto.
Qed.

End SsdLossRun.

End Runs.

(** ** Initial segments *)

Lemma is_prefix_firstn k (l : list string) : is_prefix (firstn k l) l = true.
Proof.
  revert k; induction l as [|x l IH]; intros [|k]; simpl; auto.
  rewrite String.eqb_refl, IH. reflexivity.
Qed.

Lemma In_firstn {A} k (l : list A) x : In x (firstn k l) -> In x l.
Proof.
  revert k; induction l as [|y l IH]; intros [|k]; simpl; try tauto.
  intros [H|H]; eauto.
Qed.

(** ** [ssd_loss]: the order of the pipeline *)

Lemma ssd_loss_bad_rank infer location confidence gt_box gt_label prior_box
    prior_box_var background_label overlap_threshold neg_pos_ratio
    neg_overlap loc_loss_weight conf_loss_weight match_type sample_size g :
  List.length (var_shape (nth confidence (g_vars g) d0)) <> 3%nat ->
  ssd_loss infer location confidence gt_box gt_label prior_box prior_box_var
    background_label overlap_threshold neg_pos_ratio neg_overlap
    loc_loss_weight conf_loss_weight match_type "max_negative" sample_size g
  = (g, Raise (ValueError "wrong number of values to unpack")).
Proof.
  intros H. unfold ssd_loss. rewrite String.eqb_refl. cbn [negb].
  rewrite (bind_ok _ _ _ _ _ (shape_of_run confidence g)).
  destruct (var_shape (nth confidence (g_vars g) d0))
    as [|a [|b [|c [|d s]]]]; try reflexivity.
  now elim H.
Qed.

Lemma rank_three (s : list Z) :
  List.length s = 3%nat -> exists a b c, s = [a; b; c].
Proof.
  destruct s as [|a [|b [|c [|d s]]]]; try discriminate. eauto.
Qed.

Lemma Forall_nth_error {A} (P : A -> Prop) l k x :
  Forall P l -> nth_error l k = Some x -> P x.
Proof.
  intros H E. rewrite Forall_forall in H. eauto using nth_error_In.
Qed.

Lemma in_outputs_producer ops v :
  In v (map snd (flat_map op_outputs ops)) ->
  exists op slot, In op ops /\ In (slot, v) (op_outputs op).
Proof.
  intros H. apply in_map_iff in H. destruct H as ([slot v'] & Hv & Hin).
  simpl in Hv. subst v'. apply in_flat_map in Hin.
  destruct Hin as (op & Hop & Hout). eauto.
Qed.

(** A call on a confidence of three dimensions returns whenever the
    runtime infers no empty shape and the location is a variable of the
    graph with a non-empty shape. *)
Lemma ssd_loss_returns infer location confidence gt_box gt_label prior_box
    prior_box_var background_label overlap_threshold neg_pos_ratio
    neg_overlap loc_loss_weight conf_loss_weight match_type sample_size g :
  List.length (var_shape (nth confidence (g_vars g) d0)) = 3%nat ->
  (forall T op slot, infer T op slot <> []) ->
  (location < List.length (g_vars g))%nat ->
  var_shape (nth location (g_vars g) d0) <> [] ->
  is_Ok
    (snd
       (ssd_loss infer location confidence gt_box gt_label prior_box
          prior_box_var background_label overlap_threshold neg_pos_ratio
          neg_overlap loc_loss_weight conf_loss_weight match_type
          "max_negative" sample_size g)) = true.
Proof.
  intros Hrank Hne Hloc Hlocshape.
  destruct (rank_three _ Hrank) as (num & num_prior & num_class & Hshape).
  destruct (ssd_loss_run infer location confidence gt_box gt_label
              prior_box prior_box_var background_label overlap_threshold
              neg_pos_ratio neg_overlap loc_loss_weight conf_loss_weight
              match_type sample_size num num_prior num_class g Hshape)
    as (g' & r & new & u & k & Hrun & Hgrown & Hnew & Hres).
  rewrite Hrun. cbn [fst snd].
  destruct Hres as [[-> _] | (_ & _ & v & Hv & Hwhere)]; [reflexivity|].
  exfalso. destruct Hwhere as [->|Hin].
  - rewrite (grown_frame _ _ _ _ _ Hgrown Hloc) in Hv. contradiction.
  - apply in_outputs_producer in Hin.
    destruct Hin as (op & slot & Hop & Hout).
    pose proof (grown_consistent _ _ _ _ Hgrown) as Hcons.
    rewrite Forall_forall in Hcons.
    destruct (Hcons op Hop) as (T & _ & Hshaped).
    destruct (Hshaped slot v Hout) as [_ Hs].
    rewrite Hv in Hs. symmetry in Hs. eapply Hne; eauto.
Qed.

(** C1. A call to [ssd_loss] with mining type ['max_negative'] appends its
    operators in the order of the pipeline: IOU similarity, bipartite
    matcher, target assigner on the ground-truth labels with the background
    label as mismatch value, softmax cross-entropy, hard negative miner,
    box coder in mode ['encode_center_size'], target assigner for the
    regression targets, target assigner for the classification targets
    (with the mined negative indices), then the loss composition.  The
    operators of any call are an initial segment of this sequence, and the
    whole of it when the call returns; reshapes and casts re-lay out the
    tensors between the stages.  The call returns whenever the confidence
    has three dimensions, the runtime infers no empty shape and the
    location is a variable of the graph with a non-empty shape. *)
Theorem ssd_loss_pipeline_order infer location confidence gt_box gt_label
    prior_box prior_box_var background_label overlap_threshold neg_pos_ratio
    neg_overlap loc_loss_weight conf_loss_weight match_type sample_size g :
  let res :=
    ssd_loss infer location confidence gt_box gt_label prior_box
      prior_box_var background_label overlap_threshold neg_pos_ratio
      neg_overlap loc_loss_weight conf_loss_weight match_type
      "max_negative" sample_size g in
  let n := List.length (g_vars g) in
  exists new,
    g_ops (fst res) = g_ops g ++ new
    /\ is_prefix (map op_type new) ssd_loss_kinds = true
    /\ (is_Ok (snd res) = true ->
        map op_type new = ssd_loss_kinds
        /\ stages new
           = ssd_loss_stages n gt_box prior_box prior_box_var
               background_label neg_pos_ratio loc_loss_weight
               conf_loss_weight sample_size
        /\ exists s,
             nth_error new 2 = Some (reshape_op gt_label (s ++ [1]) (fresh n 3)))
    /\ (List.length (var_shape (nth confidence (g_vars g) d0)) = 3%nat ->
        (forall T op slot, infer T op slot <> []) ->
        (location < n)%nat ->
        var_shape (nth location (g_vars g) d0) <> [] ->
        is_Ok (snd res) = true).
Proof.
  intros res n.
  enough (Hmain :
    exists new,
      g_ops (fst res) = g_ops g ++ new
      /\ is_prefix (map op_type new) ssd_loss_kinds = true
      /\ (is_Ok (snd res) = true ->
          map op_type new = ssd_loss_kinds
          /\ stages new
             = ssd_loss_stages n gt_box prior_box prior_box_var
                 background_label neg_pos_ratio loc_loss_weight
                 conf_loss_weight sample_size
          /\ exists s,
               nth_error new 2
               = Some (reshape_op gt_label (s ++ [1]) (fresh n 3)))).
  { destruct Hmain as (new & H1 & H2 & H3). exists new.
    split; [exact H1|]. split; [exact H2|]. split; [exact H3|].
    intros. apply ssd_loss_returns; assumption. }
  destruct (Nat.eq_dec
              (List.length (var_shape (nth confidence (g_vars g) d0))) 3)
    as [Hrank|Hrank].
  - destruct (rank_three _ Hrank) as (num & num_prior & num_class & Hshape).
    destruct (ssd_loss_run infer location confidence gt_box gt_label
                prior_box prior_box_var background_label overlap_threshold
                neg_pos_ratio neg_overlap loc_loss_weight conf_loss_weight
                match_type sample_size num num_prior num_class g Hshape)
      as (g' & r & new & u & k & Hrun & Hgrown & Hnew & Hres).
    subst res. rewrite Hrun. cbn [fst snd].
    exists new. split; [eapply grown_ops; eauto|].
    split.
    + subst new. rewrite <- firstn_map. apply is_prefix_firstn.
    + intros Hok. destruct Hres as [[-> ->] | [-> _]]; [|discriminate].
      subst new. fold n. cbn [firstn].
      split; [reflexivity|]. split; [reflexivity|].
      eexists. reflexivity.
  - subst res. rewrite ssd_loss_bad_rank by assumption. cbn [fst snd].
    exists []. rewrite app_nil_r.
    split; [reflexivity|]. split; [reflexivity|]. discriminate.
Qed.

(** ** [ssd_loss]: configuration errors *)

Lemma ssd_loss_bad_mining_type infer location confidence gt_box gt_label
    prior_box prior_box_var background_label overlap_threshold neg_pos_ratio
    neg_overlap loc_loss_weight conf_loss_weight match_type mining_type
    sample_size g :
  mining_type <> "max_negative" ->
  ssd_loss infer location confidence gt_box gt_label prior_box prior_box_var
    background_label overlap_threshold neg_pos_ratio neg_overlap
    loc_loss_weight conf_loss_weight match_type mining_type sample_size g
  = (g, Raise (ValueError "Only support mining_type == max_negative now.")).
Proof.
  intros H. unfold ssd_loss.
  destruct (String.eqb_spec mining_type "max_negative"); [contradiction|].
  reflexivity.
Qed.

(** C3, as amended. [ssd_loss] raises a [ValueError] if and only if the
    mining type is not ['max_negative'] or the shape of the confidence does
    not have exactly three dimensions; in both cases the error is raised
    before any operator is appended and the graph is unchanged. *)
Theorem ssd_loss_value_error infer location confidence gt_box gt_label
    prior_box prior_box_var background_label overlap_threshold neg_pos_ratio
    neg_overlap loc_loss_weight conf_loss_weight match_type mining_type
    sample_size g :
  let res :=
    ssd_loss infer location confidence gt_box gt_label prior_box
      prior_box_var background_label overlap_threshold neg_pos_ratio
      neg_overlap loc_loss_weight conf_loss_weight match_type mining_type
      sample_size g in
  (is_ValueError (snd res) = true <->
   (mining_type <> "max_negative"
    \/ List.length (var_shape (nth confidence (g_vars g) d0)) <> 3%nat))
  /\ (is_ValueError (snd res) = true -> fst res = g).
Proof.
  intros res. subst res.
  destruct (String.eqb_spec mining_type "max_negative") as [->|Hne].
  - destruct (Nat.eq_dec
                (List.length (var_shape (nth confidence (g_vars g) d0))) 3)
      as [Hrank|Hrank].
    + destruct (rank_three _ Hrank) as (num & num_prior & num_class & Hshape).
      destruct (ssd_loss_run infer location confidence gt_box gt_label
                  prior_box prior_box_var background_label overlap_threshold
                  neg_pos_ratio neg_overlap loc_loss_weight conf_loss_weight
                  match_type sample_size num num_prior num_class g Hshape)
        as (g' & r & new & u & k & Hrun & _ & _ & Hres).
      rewrite Hrun. cbn [fst snd].
      assert (Hr : is_ValueError r = false)
        by (destruct Hres as [[-> _] | [-> _]]; reflexivity).
      rewrite Hr. split; [|discriminate].
      split; [discriminate|]. intros [H|H]; [now elim H | contradiction].
    + rewrite ssd_loss_bad_rank by assumption. cbn [fst snd is_ValueError].
      split; [|reflexivity]. split; auto.
  - rewrite ssd_loss_bad_mining_type by assumption.
    cbn [fst snd is_ValueError]. split; [|reflexivity]. split; auto.
Qed.

(** ** [ssd_loss]: the attributes of the miner *)

(** C4. The [mine_hard_examples] operator that [ssd_loss] appends has its
    [neg_dist_threshold] attribute set to the [neg_pos_ratio] argument, and
    the [neg_overlap] argument has no effect: two calls that differ only in
    [neg_overlap] build the same graph and return the same result.  The
    operator is appended by every call that returns, and a call with
    mining type ['max_negative'] returns whenever the confidence has three
    dimensions, the runtime infers no empty shape and the location is a
    variable of the graph with a non-empty shape. *)
Theorem ssd_loss_neg_overlap_unused infer location confidence gt_box gt_label
    prior_box prior_box_var background_label overlap_threshold neg_pos_ratio
    neg_overlap loc_loss_weight conf_loss_weight match_type mining_type
    sample_size g :
  let res :=
    ssd_loss infer location confidence gt_box gt_label prior_box
      prior_box_var background_label overlap_threshold neg_pos_ratio
      neg_overlap loc_loss_weight conf_loss_weight match_type mining_type
      sample_size g in
  exists new,
    g_ops (fst res) = g_ops g ++ new
    /\ (forall op,
          In op new -> op_type op = "mine_hard_examples" ->
          attr_of "neg_dist_threshold" op = Some neg_pos_ratio
          /\ attr_of "neg_pos_ratio" op = Some neg_pos_ratio)
    /\ (is_Ok (snd res) = true ->
        exists op, In op new /\ op_type op = "mine_hard_examples")
    /\ (forall neg_overlap',
          ssd_loss infer location confidence gt_box gt_label prior_box
            prior_box_var background_label overlap_threshold neg_pos_ratio
            neg_overlap' loc_loss_weight conf_loss_weight match_type
            mining_type sample_size g = res)
    /\ (mining_type = "max_negative" ->
        List.length (var_shape (nth confidence (g_vars g) d0)) = 3%nat ->
        (forall T op slot, infer T op slot <> []) ->
        (location < List.length (g_vars g))%nat ->
        var_shape (nth location (g_vars g) d0) <> [] ->
        is_Ok (snd res) = true).
Proof.
  intros res.
  enough (Hmain :
    exists new,
      g_ops (fst res) = g_ops g ++ new
      /\ (forall op,
            In op new -> op_type op = "mine_hard_examples" ->
            attr_of "neg_dist_threshold" op = Some neg_pos_ratio
            /\ attr_of "neg_pos_ratio" op = Some neg_pos_ratio)
      /\ (is_Ok (snd res) = true ->
          exists op, In op new /\ op_type op = "mine_hard_examples")
      /\ (forall neg_overlap',
            ssd_loss infer location confidence gt_box gt_label prior_box
              prior_box_var background_label overlap_threshold
              neg_pos_ratio neg_overlap' loc_loss_weight conf_loss_weight
              match_type mining_type sample_size g = res)).
  { destruct Hmain as (new & H1 & H2 & H3 & H4). exists new.
    split; [exact H1|]. split; [exact H2|]. split; [exact H3|].
    split; [exact H4|].
    intros -> Hrank Hne Hloc Hshape. subst res.
    apply ssd_loss_returns; assumption. }
  subst res.
  assert (Hnone :
    forall e,
      ssd_loss infer location confidence gt_box gt_label prior_box
        prior_box_var background_label overlap_threshold neg_pos_ratio
        neg_overlap loc_loss_weight conf_loss_weight match_type mining_type
        sample_size g = (g, Raise e) ->
      exists new,
        g_ops (fst (g, @Raise Var e)) = g_ops g ++ new
        /\ (forall op,
              In op new -> op_type op = "mine_hard_examples" ->
              attr_of "neg_dist_threshold" op = Some neg_pos_ratio
              /\ attr_of "neg_pos_ratio" op = Some neg_pos_ratio)
        /\ (is_Ok (snd (g, @Raise Var e)) = true ->
            exists op, In op new /\ op_type op = "mine_hard_examples")).
  { intros e _. exists []. cbn [fst snd is_Ok]. rewrite app_nil_r.
    split; [reflexivity|]. split; [intros op []|discriminate]. }
  assert (Hsame :
    forall neg_overlap',
      ssd_loss infer location confidence gt_box gt_label prior_box
        prior_box_var background_label overlap_threshold neg_pos_ratio
        neg_overlap' loc_loss_weight conf_loss_weight match_type
        mining_type sample_size g
      = ssd_loss infer location confidence gt_box gt_label prior_box
          prior_box_var background_label overlap_threshold neg_pos_ratio
          neg_overlap loc_loss_weight conf_loss_weight match_type
          mining_type sample_size g) by reflexivity.
  destruct (String.eqb_spec mining_type "max_negative") as [->|Hne].
  - destruct (Nat.eq_dec
                (List.length (var_shape (nth confidence (g_vars g) d0))) 3)
      as [Hrank|Hrank].
    + destruct (rank_three _ Hrank) as (num & num_prior & num_class & Hshape).
      destruct (ssd_loss_run infer location confidence gt_box gt_label
                  prior_box prior_box_var background_label overlap_threshold
                  neg_pos_ratio neg_overlap loc_loss_weight conf_loss_weight
                  match_type sample_size num num_prior num_class g Hshape)
        as (g' & r & new & u & k & Hrun & Hgrown & Hnew & Hres).
      rewrite Hrun in *. cbn [fst snd].
      exists new. split; [eapply grown_ops; eauto|].
      split; [|split; [|exact Hsame]].
      * intros op Hin Hty. subst new. apply In_firstn in Hin.
        unfold ssd_loss_trace in Hin. cbn [In] in Hin.
        repeat (destruct Hin as [<-|Hin]; [try discriminate Hty|]);
          [|contradiction].
        split; reflexivity.
      * intros Hok. destruct Hres as [[-> ->] | [-> _]]; [|discriminate].
        subst new. eexists. split.
        -- cbn [firstn ssd_loss_trace In]. do 9 right. left. reflexivity.
        -- reflexivity.
    + rewrite ssd_loss_bad_rank in * by assumption.
      destruct (Hnone _ eq_refl) as (new & H1 & H2 & H3).
      exists new. auto.
  - rewrite ssd_loss_bad_mining_type in * by assumption.
    destruct (Hnone _ eq_refl) as (new & H1 & H2 & H3).
    exists new. auto.
Qed.

(** ** [ssd_loss]: the loss that is returned *)

Lemma numel_three a b c : c <> 0 -> numel [a; b; c] / c = a * b.
Proof.
  intros Hc. unfold numel. cbn [fold_right].
  rewrite Z.mul_1_r, Z.mul_assoc. apply Z.div_mul. assumption.
Qed.

Section SsdLossShape.

Variable infer : list VarDesc -> OpDesc -> string -> list Z.
Variables location confidence gt_box gt_label prior_box : Var.
Variables prior_box_var background_label neg_pos_ratio loc_loss_weight
  conf_loss_weight sample_size : pyval.
Variables num num_prior num_class : Z.
Variable u : Inferred.
Variables g g' : Graph.

Let n := List.length (g_vars g).

Hypothesis confidence_shape :
  var_shape (nth confidence (g_vars g) d0) = [num; num_prior; num_class].
Hypothesis run :
  grown infer g g'
    (ssd_loss_trace n location confidence gt_box gt_label prior_box
       prior_box_var background_label neg_pos_ratio loc_loss_weight
       conf_loss_weight sample_size num num_prior num_class u).
Hypothesis positive : 0 < num /\ 0 < num_prior /\ 0 < num_class.
Hypothesis reshapes : reshape_rule infer.
Hypothesis softmaxes : softmax_rule infer.
Hypothesis elementwises : elementwise_rule infer.
Hypothesis weight_is_number : is_number conf_loss_weight = true.

Ltac at_op k T Hagree Hshaped :=
  let H := fresh "H" in
  pose proof (Forall_nth_error _ _ k _ (grown_consistent _ _ _ _ run) eq_refl)
    as H;
  destruct H as (T & Hagree & Hshaped);
  cbn [first_output op_outputs reshape_op softmax_op elementwise_op]
    in Hagree.

Lemma ssd_loss_trace_shape :
  var_shape (nth (fresh n 33) (g_vars g') d0) = [num * num_prior; 1].
Proof.
  destruct positive as (Hnum & Hprior & Hclass).
  destruct elementwises as [Hvar Hscalar].
  assert (Hconf : (confidence < n)%nat).
  { apply shaped_in_table. rewrite confidence_shape. discriminate. }
  (* the reshaped confidence *)
  assert (H6 : var_shape (nth (fresh n 6) (g_vars g') d0)
               = [num * num_prior; num_class]).
  { at_op 4%nat T Hagree Hshaped.
    destruct (Hshaped "Out" (fresh n 6)) as [_ ->]; [now left|].
    assert (HT : var_shape (nth confidence T d0)
                 = [num; num_prior; num_class]).
    { rewrite Hagree by (unfold fresh; lia).
      rewrite (grown_frame _ _ _ _ _ run Hconf). exact confidence_shape. }
    rewrite reshapes;
      [rewrite HT | rewrite HT; repeat constructor; assumption | assumption].
    rewrite numel_three by lia. reflexivity. }
  (* the cross-entropy against the final labels *)
  assert (H22 : var_shape (nth (fresh n 22) (g_vars g') d0)
                = [num * num_prior; 1]).
  { at_op 15%nat T Hagree Hshaped.
    destruct (Hshaped "Loss" (fresh n 22)) as [_ ->]; [right; now left|].
    apply softmaxes with (c := num_class).
    rewrite Hagree by (unfold fresh; lia). exact H6. }
  (* weighted by the confidence weights *)
  assert (H24 : var_shape (nth (fresh n 24) (g_vars g') d0)
                = [num * num_prior; 1]).
  { at_op 17%nat T Hagree Hshaped.
    destruct (Hshaped "Out" (fresh n 24)) as [_ ->]; [now left|].
    apply Hvar; [now left|].
    rewrite Hagree by (unfold fresh; lia). exact H22. }
  (* scaled by conf_loss_weight *)
  assert (H31 : var_shape (nth (fresh n 31) (g_vars g') d0)
                = [num * num_prior; 1]).
  { at_op 23%nat T Hagree Hshaped.
    destruct (Hshaped "Out" (fresh n 31)) as [_ ->]; [now left|].
    apply Hscalar; [now left|assumption|].
    rewrite Hagree by (unfold fresh; lia). exact H24. }
  (* the sum *)
  at_op 25%nat T Hagree Hshaped.
  destruct (Hshaped "Out" (fresh n 33)) as [_ ->]; [now left|].
  apply Hvar; [now right|].
  rewrite Hagree by (unfold fresh; lia). exact H31.
Qed.

End SsdLossShape.

Tactic Notation "produced_at" integer(k) :=
  eexists; split;
  [ cbn [ssd_loss_trace In]; do k right; left; reflexivity
  | split; [reflexivity | split; reflexivity] ].

(** C2. [ssd_loss] returns the variable
    [conf_loss_weight * conf_loss + loc_loss_weight * loc_loss], where
    [conf_loss] is the softmax cross-entropy of the reshaped confidence
    against the final target labels (those assigned with the mined
    negatives) times the reshaped confidence weights, and [loc_loss] is the
    smooth L1 loss of the reshaped location against the reshaped target
    boxes times the reshaped location weights.  No reduction is appended:
    the returned variable is the output of the last operator, the
    elementwise sum.  Its shape is [[num * num_prior; 1]] when the runtime
    infers shapes as described for reshape, cross-entropy and elementwise
    operators.  The call returns whenever the runtime infers no empty
    shape and the location is a variable of the graph with a non-empty
    shape. *)
Theorem ssd_loss_returns_weighted_sum infer location confidence gt_box
    gt_label prior_box prior_box_var background_label overlap_threshold
    neg_pos_ratio neg_overlap loc_loss_weight conf_loss_weight match_type
    sample_size num num_prior num_class g :
  var_shape (nth confidence (g_vars g) d0) = [num; num_prior; num_class] ->
  let res :=
    ssd_loss infer location confidence gt_box gt_label prior_box
      prior_box_var background_label overlap_threshold neg_pos_ratio
      neg_overlap loc_loss_weight conf_loss_weight match_type
      "max_negative" sample_size g in
  let n := List.length (g_vars g) in
  exists new,
    g_ops (fst res) = g_ops g ++ new
    /\ ((forall T op slot, infer T op slot <> []) ->
        (location < n)%nat ->
        var_shape (nth location (g_vars g) d0) <> [] ->
        is_Ok (snd res) = true)
    /\ (forall loss,
          snd res = Ok loss ->
          loss = fresh n 33
          (* the weighted sum *)
          /\ produces new loss "elementwise_add" "Out"
               [("X", PVar (fresh n 31)); ("Y", PVar (fresh n 32))]
          /\ produces new (fresh n 31) "elementwise_mul" "Out"
               [("X", conf_loss_weight); ("Y", PVar (fresh n 24))]
          /\ produces new (fresh n 32) "elementwise_mul" "Out"
               [("X", loc_loss_weight); ("Y", PVar (fresh n 30))]
          (* the confidence loss *)
          /\ produces new (fresh n 24) "elementwise_mul" "Out"
               [("X", PVar (fresh n 22)); ("Y", PVar (fresh n 23))]
          /\ produces new (fresh n 22) "softmax_with_cross_entropy" "Loss"
               [("Logits", PVar (fresh n 6)); ("Label", PVar (fresh n 20))]
          /\ produces new (fresh n 6) "reshape" "Out" [("X", PVar confidence)]
          /\ produces new (fresh n 20) "cast" "Out"
               [("X", PVar (fresh n 19))]
          /\ produces new (fresh n 19) "reshape" "Out"
               [("X", PVar (fresh n 17))]
          /\ produces new (fresh n 17) "target_assign" "Out"
               [("X", PVar (fresh n 3));
                ("MatchIndices", PVar (fresh n 13));
                ("NegIndices", PVar (fresh n 12))]
          /\ produces new (fresh n 23) "reshape" "Out"
               [("X", PVar (fresh n 18))]
          /\ produces new (fresh n 18) "target_assign" "OutWeight"
               [("X", PVar (fresh n 3));
                ("MatchIndices", PVar (fresh n 13));
                ("NegIndices", PVar (fresh n 12))]
          (* the localization loss *)
          /\ produces new (fresh n 30) "elementwise_mul" "Out"
               [("X", PVar (fresh n 28)); ("Y", PVar (fresh n 29))]
          /\ produces new (fresh n 28) "smooth_l1_loss" "Out"
               [("X", PVar (fresh n 25)); ("Y", PVar (fresh n 26))]
          /\ produces new (fresh n 25) "reshape" "Out" [("X", PVar location)]
          /\ produces new (fresh n 26) "reshape" "Out"
               [("X", PVar (fresh n 15))]
          /\ produces new (fresh n 15) "target_assign" "Out"
               [("X", PVar (fresh n 14));
                ("MatchIndices", PVar (fresh n 13));
                ("NegIndices", PNone)]
          /\ produces new (fresh n 29) "reshape" "Out"
               [("X", PVar (fresh n 16))]
          /\ produces new (fresh n 16) "target_assign" "OutWeight"
               [("X", PVar (fresh n 14));
                ("MatchIndices", PVar (fresh n 13));
                ("NegIndices", PNone)]
          (* no reduction *)
          /\ Forall (fun op => is_reduction (op_type op) = false) new
          /\ (exists before,
                new = before
                      ++ [elementwise_op "elementwise_add"
                            (PVar (fresh n 31)) (PVar (fresh n 32)) loss])
          (* the shape *)
          /\ (0 < num /\ 0 < num_prior /\ 0 < num_class ->
              reshape_rule infer -> softmax_rule infer ->
              elementwise_rule infer ->
              is_number conf_loss_weight = true ->
              var_shape (nth loss (g_vars (fst res)) d0)
              = [num * num_prior; 1])).
Proof.
  intros Hshape res n.
  destruct (ssd_loss_run infer location confidence gt_box gt_label
              prior_box prior_box_var background_label overlap_threshold
              neg_pos_ratio neg_overlap loc_loss_weight conf_loss_weight
              match_type sample_size num num_prior num_class g Hshape)
    as (g' & r & new & u & k & Hrun & Hgrown & Hnew & Hres).
  subst res. rewrite Hrun. cbn [fst snd]. fold n in Hnew, Hres.
  exists new. split; [eapply grown_ops; eauto|]. split.
  - (* the call returns *)
    intros Hne Hloc Hlocshape.
    destruct Hres as [[-> _] | (_ & _ & v & Hv & Hwhere)]; [reflexivity|].
    exfalso. destruct Hwhere as [->|Hin].
    + rewrite (grown_frame _ _ _ _ _ Hgrown Hloc) in Hv. contradiction.
    + apply in_outputs_producer in Hin. destruct Hin as (op & slot & Hop & Hout).
      pose proof (grown_consistent _ _ _ _ Hgrown) as Hcons.
      rewrite Forall_forall in Hcons.
      destruct (Hcons op Hop) as (T & _ & Hshaped).
      destruct (Hshaped slot v Hout) as [_ Hs].
      rewrite Hv in Hs. symmetry in Hs. eapply Hne; eauto.
  - (* what is returned *)
    intros loss Hloss.
    destruct Hres as [[Hr ->] | [Hr _]]; [|congruence].
    rewrite Hr in Hloss. injection Hloss as <-.
    rewrite firstn_all2 in Hnew by (cbv; lia). subst new.
    split; [reflexivity|].
    split; [produced_at 25|]. split; [produced_at 23|].
    split; [produced_at 24|]. split; [produced_at 17|].
    split; [produced_at 15|]. split; [produced_at 4|].
    split; [produced_at 14|]. split; [produced_at 13|].
    split; [produced_at 12|]. split; [produced_at 16|].
    split; [produced_at 12|]. split; [produced_at 22|].
    split; [produced_at 20|]. split; [produced_at 18|].
    split; [produced_at 19|]. split; [produced_at 11|].
    split; [produced_at 21|]. split; [produced_at 11|].
    split; [repeat constructor|].
    split; [eexists (firstn 25 (ssd_loss_trace _ _ _ _ _ _ _ _ _ _ _ _ _ _ _ _));
            reflexivity|].
    intros Hpos Hr1 Hr2 Hr3 Hw.
    eapply ssd_loss_trace_shape; eauto.
Qed.

(** ** [detection_output] *)

(** C9. The [multiclass_nms] operator appended by [detection_output] has
    [background_label = 0] and [nms_eta = 1.0] whatever the caller passes
    for these two arguments; [nms_threshold], [nms_top_k], [keep_top_k] and
    [score_threshold] are forwarded.  Two calls that differ only in
    [background_label] or [nms_eta] build the same graph. *)
Theorem detection_output_fixed_attrs infer scores loc prior_box prior_box_var
    background_label nms_threshold nms_top_k keep_top_k score_threshold
    nms_eta g :
  let res :=
    detection_output infer scores loc prior_box prior_box_var
      background_label nms_threshold nms_top_k keep_top_k score_threshold
      nms_eta g in
  let n := List.length (g_vars g) in
  snd res = Ok (fresh n 1)
  /\ g_ops (fst res)
     = g_ops g
       ++ [ mkOpDesc "box_coder"
              [("PriorBox", PVar prior_box);
               ("PriorBoxVar", PVar prior_box_var);
               ("TargetBox", PVar loc)]
              [("OutputBox", fresh n 0)]
              [("code_type", PStr "decode_center_size")];
            multiclass_nms_op scores (fresh n 0) nms_threshold nms_top_k
              keep_top_k score_threshold (fresh n 1) ]
  /\ (forall background_label' nms_eta',
        detection_output infer scores loc prior_box prior_box_var
          background_label' nms_threshold nms_top_k keep_top_k
          score_threshold nms_eta' g = res).
Proof.
  intros res n. subst res.
  split; [|split; [|reflexivity]].
  - unfold detection_output.
    destruct (box_coder_run infer prior_box (PVar prior_box_var) loc
                "decode_center_size" g) as (g1 & Hrun & Hext).
    rewrite (bind_ok _ _ _ _ _ Hrun).
    rewrite (bind_ok _ _ _ _ _ (dtype_of_run _ g1)).
    unfold bind, create_tmp_variable, append_op, ret. cbn [fst snd].
    destruct Hext as (_ & Hlen & _). rewrite Hlen. reflexivity.
  - unfold detection_output.
    destruct (box_coder_run infer prior_box (PVar prior_box_var) loc
                "decode_center_size" g) as (g1 & Hrun & Hext).
    rewrite (bind_ok _ _ _ _ _ Hrun).
    rewrite (bind_ok _ _ _ _ _ (dtype_of_run _ g1)).
    unfold bind, create_tmp_variable, append_op, ret. cbn [fst snd g_ops].
    destruct Hext as (Hops & Hlen & _). rewrite Hops, Hlen.
    rewrite <- app_assoc. reflexivity.
Qed.

(** ** [prior_box] *)

Lemma bind_lift {A B} (r : result A) (k : A -> M B) g :
  bind (lift r) k g = match r with Ok a => k a g | Raise e => (g, Raise e) end.
Proof. destruct r; reflexivity. Qed.

Lemma foldM_ext {A B} (f f' : B -> A -> M B) xs :
  (forall acc x g, f acc x g = f' acc x g) ->
  forall acc g, foldM f xs acc g = foldM f' xs acc g.
Proof.
  intros H. induction xs as [|x xs IH]; intros acc g; simpl; [reflexivity|].
  unfold bind. rewrite H. destruct (f' acc x g) as [g1 [acc1|e]]; auto.
Qed.

Lemma appends_ret P {A} (a : A) : appends P (ret a).
Proof. intros g. exists []. rewrite app_nil_r. auto. Qed.

Lemma appends_raise P {A} e : appends P (@raise A e).
Proof. intros g. exists []. rewrite app_nil_r. auto. Qed.

Lemma appends_lift P {A} (r : result A) : appends P (lift r).
Proof. intros g. exists []. rewrite app_nil_r. auto. Qed.

Lemma appends_bind P {A B} (m : M A) (k : A -> M B) :
  appends P m -> (forall a, appends P (k a)) -> appends P (bind m k).
Proof.
  intros Hm Hk g. unfold bind.
  destruct (Hm g) as (new1 & Hops1 & HP1).
  destruct (m g) as [g1 [a|e]]; cbn [fst] in *.
  - destruct (Hk a g1) as (new2 & Hops2 & HP2).
    exists (new1 ++ new2). rewrite Hops2, Hops1, app_assoc.
    split; [reflexivity|]. apply Forall_app; auto.
  - exists new1. auto.
Qed.

Lemma appends_foldM P {A B} (f : B -> A -> M B) xs :
  (forall acc x, appends P (f acc x)) ->
  forall acc, appends P (foldM f xs acc).
Proof.
  intros H. induction xs as [|x xs IH]; intros acc; simpl.
  - apply appends_ret.
  - apply appends_bind; auto.
Qed.

Lemma appends_run P {A} (m : M A) infer op :
  (forall g, exists g' a, m g = (g', Ok a) /\ extended infer g g' op) ->
  P op -> appends P m.
Proof.
  intros H HP g. destruct (H g) as (g' & a & Hrun & Hops & _).
  rewrite Hrun. exists [op]. auto.
Qed.

Section PriorBox.

Variable infer : list VarDesc -> OpDesc -> string -> list Z.

Lemma _prior_box__run input image min_sizes max_sizes aspect_ratios variance
    flip clip step_w step_h offset g :
  exists g',
    _prior_box_ infer input image min_sizes max_sizes aspect_ratios
      variance flip clip step_w step_h offset g
    = (g', Ok (List.length (g_vars g), S (List.length (g_vars g))))
    /\ extended infer g g'
         (mkOpDesc "prior_box"
            [("Input", input); ("Image", PVar image)]
            [("Boxes", List.length (g_vars g));
             ("Variances", S (List.length (g_vars g)))]
            [("min_sizes", min_sizes);
             ("max_sizes", max_sizes);
             ("aspect_ratios", aspect_ratios);
             ("variances", variance);
             ("flip", flip);
             ("clip", clip);
             ("step_w", step_w);
             ("step_h", step_h);
             ("offset", offset)]).
Proof.
  destruct input; eexists; (split; [|apply extended_two]);
    unfold _prior_box_, input_dtype;
    cbn [lookup kwargs String.eqb Ascii.eqb Bool.eqb]; run_layer.
Qed.

Lemma reshape_with_axis_appends input axis :
  appends (fun op => op_type op = "reshape")
    (_reshape_with_axis_ infer input axis).
Proof.
  unfold _reshape_with_axis_.
  apply appends_bind; [intros g; exists []; rewrite app_nil_r; auto|].
  intros shape.
  destruct (negb _); [apply appends_raise|].
  apply appends_bind; [apply appends_lift|].
  intros m g. destruct (reshape_run infer input [-1; m] g)
    as (g' & Hrun & Hops & _).
  rewrite Hrun. exists [reshape_op input [-1; m] (List.length (g_vars g))].
  split; [exact Hops|]. repeat constructor.
Qed.

Lemma concat_appends xs :
  appends (fun op => op_type op = "concat") (concat infer xs).
Proof.
  intros g. destruct (concat_run infer xs g) as (g' & Hrun & Hops & _).
  rewrite Hrun. eexists. split; [exact Hops|]. repeat constructor.
Qed.

Lemma appends_weaken (P Q : OpDesc -> Prop) {A} (m : M A) :
  (forall op, P op -> Q op) -> appends P m -> appends Q m.
Proof.
  intros H Hm g. destruct (Hm g) as (new & Hops & HP).
  exists new. split; [assumption|]. eapply Forall_impl; eauto.
Qed.

Lemma prior_box_tail_appends box_results var_results :
  appends (fun op => op_type op <> "prior_box")
    (prior_box_tail infer box_results var_results).
Proof.
  assert (Hgen :
    appends (fun op => op_type op <> "prior_box")
      (bind
        (foldM (fun '(bs, vs) '(b, v) =>
                  bind (_reshape_with_axis_ infer b 3) (fun b' =>
                  bind (_reshape_with_axis_ infer v 3) (fun v' =>
                  ret (bs ++ [b'], vs ++ [v']))))
               (combine box_results var_results) ([], []))
        (fun '(reshaped_boxes, reshaped_vars) =>
           bind (concat infer reshaped_boxes) (fun box =>
           bind (concat infer reshaped_vars) (fun var =>
           ret (box, var)))))).
  { apply appends_bind.
    - apply appends_foldM. intros [bs vs] [b v].
      apply appends_bind;
        [eapply appends_weaken; [|apply reshape_with_axis_appends];
         intros op ->; discriminate|].
      intros b'. apply appends_bind;
        [eapply appends_weaken; [|apply reshape_with_axis_appends];
         intros op ->; discriminate|].
      intros v'. apply appends_ret.
    - intros [bs vs]. apply appends_bind;
        [eapply appends_weaken; [|apply concat_appends];
         intros op ->; discriminate|].
      intros box. apply appends_bind;
        [eapply appends_weaken; [|apply concat_appends];
         intros op ->; discriminate|].
      intros var. apply appends_ret. }
  unfold prior_box_tail.
  destruct box_results as [|b [|b' bs]]; try exact Hgen.
  destruct var_results as [|v [|v' vs]]; try exact Hgen.
  apply appends_ret.
Qed.

Section ZeroSteps.

Variable image : Var.
Variables min_sizes max_sizes aspect_ratios step_w step_h offset variance
  flip clip : pyval.

Hypothesis no_step_w : truthy step_w = false.

Let body :=
  prior_box_layer infer image min_sizes max_sizes aspect_ratios step_w
    step_h offset variance flip clip.

Lemma prior_box_layer_zero acc ix g :
  (exists e, body acc ix g = (g, Raise e))
  \/ (exists g' acc' op,
        body acc ix g = (g', Ok acc')
        /\ g_ops g' = g_ops g ++ [op]
        /\ zero_step_prior_box op).
Proof.
  unfold body, prior_box_layer. destruct acc as [bs vs], ix as [i input].
  rewrite no_step_w.
  rewrite bind_lift. destruct (py_getitem min_sizes i) as [mn|e]; [|eauto].
  rewrite bind_lift. destruct (py_getitem max_sizes i) as [mx|e]; [|eauto].
  assert (Har :
    (exists e, (if truthy aspect_ratios
                then bind (lift (py_getitem aspect_ratios i))
                       (fun a => ret (as_list a))
                else ret (PList [])) g = (g, Raise e))
    \/ (exists a, (if truthy aspect_ratios
                   then bind (lift (py_getitem aspect_ratios i))
                          (fun a => ret (as_list a))
                   else ret (PList [])) g = (g, Ok a))).
  { destruct (truthy aspect_ratios); [|right; eexists; reflexivity].
    rewrite bind_lift.
    destruct (py_getitem aspect_ratios i);
      [right; eexists; reflexivity | left; eexists; reflexivity]. }
  destruct Har as [[e He] | [a Ha]].
  - left. exists e. rewrite (bind_raise _ _ _ _ _ He). reflexivity.
  - right. rewrite (bind_ok _ _ _ _ _ Ha).
    unfold ret at 1 2. unfold bind at 1 2.
    destruct (_prior_box__run input image (as_list mn) (as_list mx) a
                variance flip clip (PFloat 0.0) (PFloat 0.0) offset g)
      as (g' & Hrun & Hops & _).
    rewrite (bind_ok _ _ _ _ _ Hrun). cbv beta iota.
    do 3 eexists. split; [reflexivity|]. split; [exact Hops|].
    repeat split.
Qed.

Lemma prior_box_loop_zero xs acc g :
  let res := foldM body xs acc g in
  exists new,
    g_ops (fst res) = g_ops g ++ new
    /\ Forall zero_step_prior_box new
    /\ (is_Ok (snd res) = true -> List.length new = List.length xs).
Proof.
  revert acc g. induction xs as [|x xs IH]; intros acc g; simpl.
  - exists []. rewrite app_nil_r. auto.
  - destruct (prior_box_layer_zero acc x g)
      as [[e He] | (g' & acc' & op & Hrun & Hops & Hzero)].
    + rewrite (bind_raise _ _ _ _ _ He). exists []. rewrite app_nil_r.
      cbn. split; [reflexivity|]. split; [constructor|discriminate].
    + rewrite (bind_ok _ _ _ _ _ Hrun).
      destruct (IH acc' g') as (new & Hnew & Hall & Hlen).
      exists (op :: new). rewrite Hnew, Hops, <- app_assoc.
      split; [reflexivity|]. split; [constructor; assumption|].
      intros Hok. cbn [List.length]. f_equal. auto.
Qed.

End ZeroSteps.

End PriorBox.

Lemma prior_box_ops_app ops1 ops2 :
  Forall zero_step_prior_box ops1 ->
  Forall (fun op => op_type op <> "prior_box") ops2 ->
  prior_box_ops (ops1 ++ ops2) = ops1.
Proof.
  intros H1 H2. unfold prior_box_ops. rewrite filter_app.
  replace (filter _ ops2) with (@nil OpDesc).
  - rewrite app_nil_r. induction H1 as [|op ops [Hty _] _ IH]; simpl; auto.
    rewrite Hty. simpl. f_equal. exact IH.
  - induction H2 as [|op ops Hty _ IH]; simpl; auto.
    destruct (String.eqb_spec (op_type op) "prior_box"); [contradiction|auto].
Qed.

Lemma check_steps_without_steps num_layer aspect_ratios steps step_w step_h :
  truthy steps = false ->
  truthy step_w = false ->
  check_steps num_layer aspect_ratios steps step_w step_h
  = if bad_layer_arg aspect_ratios num_layer
    then Raise (ValueError
                  ("aspect_ratios should be list and the length of inputs "
                     ++ "and aspect_ratios should be the same.")%string)
    else if bad_layer_arg step_h num_layer
    then Raise (ValueError
                  ("step_h should be list and the length of inputs and "
                     ++ "step_h should be the same.")%string)
    else Ok (step_w, step_h).
Proof.
  intros Hs Hw. unfold check_steps, bad_layer_arg. rewrite Hs, Hw.
  reflexivity.
Qed.

Lemma prior_box_layer_step_h infer image min_sizes max_sizes aspect_ratios
    step_w step_h step_h' offset variance flip clip acc ix g :
  truthy step_w = false ->
  prior_box_layer infer image min_sizes max_sizes aspect_ratios step_w
    step_h offset variance flip clip acc ix g
  = prior_box_layer infer image min_sizes max_sizes aspect_ratios step_w
      step_h' offset variance flip clip acc ix g.
Proof.
  intros Hw. unfold prior_box_layer. destruct acc, ix. rewrite Hw.
  reflexivity.
Qed.

(** C10. When neither [step_w] nor [steps] is supplied, [step_h] does not
    reach the graph: every [prior_box] operator that the call appends gets
    [0.0] for both its width step and its height step, one operator per
    input when the call returns, and two values of [step_h] that pass the
    check of the argument lists give the same graph and the same result. *)
Theorem prior_box_step_h_ignored infer inputs image min_ratio max_ratio
    aspect_ratios base_size steps step_w step_h offset variance flip clip
    min_sizes max_sizes name g :
  truthy step_w = false ->
  truthy steps = false ->
  let num_layer := List.length inputs in
  let res :=
    prior_box infer (PList inputs) image min_ratio max_ratio aspect_ratios
      base_size steps step_w step_h offset variance flip clip min_sizes
      max_sizes name g in
  exists new,
    g_ops (fst res) = g_ops g ++ new
    /\ Forall zero_step_prior_box (prior_box_ops new)
    /\ (is_Ok (snd res) = true ->
        List.length (prior_box_ops new) = num_layer)
    /\ (forall step_h',
          bad_layer_arg step_h num_layer = false ->
          bad_layer_arg step_h' num_layer = false ->
          prior_box infer (PList inputs) image min_ratio max_ratio aspect_ratios
            base_size steps step_w step_h' offset variance flip clip
            min_sizes max_sizes name g = res).
Proof.
  intros Hw Hs num_layer res. subst res.
  assert (Hnil :
    forall (r : result (Var * Var)),
      is_Ok r = false ->
      g_ops (fst (g, r)) = g_ops g ++ []
      /\ Forall zero_step_prior_box (prior_box_ops [])
      /\ (is_Ok (snd (g, r)) = true ->
          List.length (prior_box_ops []) = num_layer)).
  { intros r Hr. cbn [fst snd]. rewrite app_nil_r, Hr.
    split; [reflexivity|]. split; [constructor|discriminate]. }
  assert (Hsame :
    forall step_h',
      bad_layer_arg step_h num_layer = false ->
      bad_layer_arg step_h' num_layer = false ->
      prior_box infer (PList inputs) image min_ratio max_ratio aspect_ratios
        base_size steps step_w step_h' offset variance flip clip
        min_sizes max_sizes name g
      = prior_box infer (PList inputs) image min_ratio max_ratio aspect_ratios
          base_size steps step_w step_h offset variance flip clip
          min_sizes max_sizes name g).
  { intros step_h' Hh Hh'. unfold prior_box. fold num_layer.
    rewrite !bind_lift.
    destruct (layer_sizes _ _ _ _ _ _) as [[mins maxs]|e]; [|reflexivity].
    rewrite !bind_lift.
    rewrite !check_steps_without_steps by assumption.
    rewrite Hh, Hh'.
    destruct (bad_layer_arg aspect_ratios num_layer); [reflexivity|].
    unfold bind.
    rewrite (foldM_ext _ _ _
               (fun acc x g =>
                  prior_box_layer_step_h infer image mins maxs aspect_ratios
                    step_w step_h' step_h offset variance flip clip acc x g
                    Hw)).
    reflexivity. }
  set (res :=
         prior_box infer (PList inputs) image min_ratio max_ratio aspect_ratios
           base_size steps step_w step_h offset variance flip clip
           min_sizes max_sizes name g) in *.
  enough (Hmain :
    exists new,
      g_ops (fst res) = g_ops g ++ new
      /\ Forall zero_step_prior_box (prior_box_ops new)
      /\ (is_Ok (snd res) = true ->
          List.length (prior_box_ops new) = num_layer)).
  { destruct Hmain as (new & H1 & H2 & H3). exists new. auto. }
  clear Hsame. subst res.
  unfold prior_box. fold num_layer.
  rewrite bind_lift.
  destruct (layer_sizes _ _ _ _ _ _) as [[mins maxs]|e];
    [|exists []; apply (Hnil (Raise e) eq_refl)].
  rewrite bind_lift.
  rewrite check_steps_without_steps by assumption.
  destruct (bad_layer_arg aspect_ratios num_layer);
    [exists []; apply (Hnil (Raise _) eq_refl)|].
  destruct (bad_layer_arg step_h num_layer);
    [exists []; apply (Hnil (Raise _) eq_refl)|].
  destruct (prior_box_loop_zero infer image mins maxs aspect_ratios step_w
              step_h offset variance flip clip Hw
              (combine (seq 0 num_layer) inputs) ([], []) g)
    as (new1 & Hops1 & Hzero & Hlen).
  unfold bind.
  destruct (foldM _ _ _ g) as [g1 [[boxes vars]|e]];
    cbn [fst snd is_Ok] in *.
  - destruct (prior_box_tail_appends infer boxes vars g1)
      as (new2 & Hops2 & Hnot).
    exists (new1 ++ new2).
    rewrite prior_box_ops_app by assumption.
    split; [rewrite Hops2, Hops1, app_assoc; reflexivity|].
    split; [assumption|].
    intros _. rewrite Hlen by reflexivity.
    rewrite length_combine, length_seq. unfold num_layer. lia.
  - exists new1.
    assert (Hf : prior_box_ops new1 = new1).
    { rewrite <- (app_nil_r new1) at 1. apply prior_box_ops_app; auto. }
    rewrite Hf.
    split; [assumption|]. split; [assumption|discriminate].
Qed.


(** * Properties of the numeric operators *)

Lemma Qltb_lt x y : Qltb x y = true <-> (x < y)%Q.
Proof.
  unfold Qltb. rewrite Qlt_alt. destruct (x ?= y)%Q; split; congruence.
Qed.

Lemma Qltb_ge x y : Qltb x y = false <-> (y <= x)%Q.
Proof.
  split.
  - intros H. apply Qnot_lt_le. intros Hlt. apply Qltb_lt in Hlt. congruence.
  - intros H. destruct (Qltb x y) eqn:E; [|reflexivity].
    apply Qltb_lt in E. exfalso. eapply Qlt_irrefl.
    eapply Qlt_le_trans; eauto.
Qed.

(** ** Target assigner *)

Lemma nth_error_list_set {A} (l : list A) i j x :
  nth_error (list_set l i x) j
  = if Nat.eqb i j && (i <? List.length l)%nat then Some x
    else nth_error l j.
Proof.
  revert i j; induction l as [|y l IH]; intros [|i] [|j]; simpl;
    rewrite ?andb_false_r; auto.
Qed.

Lemma nth_error_map_indexed {A B} (f : nat * A -> B) (l : list A) k i :
  nth_error (map f (combine (seq k (List.length l)) l)) i
  = option_map (fun x => f ((k + i)%nat, x)) (nth_error l i).
Proof.
  revert k i; induction l as [|x l IH]; intros k [|i]; simpl; auto.
  - rewrite Nat.add_0_r. reflexivity.
  - rewrite IH. replace (S k + i)%nat with (k + S i)%nat by lia. reflexivity.
Qed.

Lemma nth_error_combine {A B} (l1 : list A) (l2 : list B) k :
  nth_error (combine l1 l2) k
  = match nth_error l1 k, nth_error l2 k with
    | Some a, Some b => Some (a, b)
    | _, _ => None
    end.
Proof.
  revert l2 k; induction l1 as [|a l1 IH]; intros [|b l2] [|k]; simpl; auto.
  destruct (nth_error l1 k); reflexivity.
Qed.

Lemma nth_error_seq0 n k :
  nth_error (seq 0 n) k = if (k <? n)%nat then Some k else None.
Proof.
  destruct (Nat.ltb_spec k n) as [H|H].
  - rewrite (nth_error_nth' _ O) by (rewrite length_seq; exact H).
    rewrite seq_nth by exact H. reflexivity.
  - apply nth_error_None. rewrite length_seq. exact H.
Qed.

Module TargetAssignFacts.
Import TargetAssign.

Lemma at_assign_matched X lod mismatch_value K match_indices i j indices id :
  nth_error match_indices i = Some indices ->
  nth_error indices j = Some id ->
  at_ (assign_matched X lod mismatch_value K match_indices) i j
  = Some (assign_entry X lod mismatch_value K i j id).
Proof.
  intros Hi Hj. unfold at_, assign_matched.
  rewrite nth_error_map_indexed, Hi. cbn [option_map Nat.add].
  unfold assign_instance. rewrite nth_error_map_indexed, Hj. reflexivity.
Qed.

Lemma overwrite_negatives_nth mismatch_value K negs row j :
  nth_error (fold_left (overwrite_negative mismatch_value K) negs row) j
  = if existsb (fun id => (0 <=? id)%Z && Nat.eqb (Z.to_nat id) j) negs
       && (j <? List.length row)%nat
    then Some (mismatched mismatch_value K, 1%Q)
    else nth_error row j.
Proof.
  revert row; induction negs as [|id negs IH]; intros row; simpl.
  - reflexivity.
  - rewrite IH. clear IH. unfold overwrite_negative.
    destruct (0 <=? id)%Z; cbn [andb orb]; [|reflexivity].
    rewrite length_list_set, nth_error_list_set.
    destruct (Nat.eqb_spec (Z.to_nat id) j) as [<-|Hne];
      destruct (existsb _ negs);
      destruct (Z.to_nat id <? List.length row)%nat;
      cbn [andb orb]; reflexivity.
Qed.

Lemma is_negative_spec negs j :
  existsb (fun id => (0 <=? id)%Z && Nat.eqb (Z.to_nat id) j) negs = true
  <-> In (Z.of_nat j) negs.
Proof.
  rewrite existsb_exists. split.
  - intros (id & Hin & H). apply andb_prop in H. destruct H as [H0 Hj].
    apply Z.leb_le in H0. apply Nat.eqb_eq in Hj. subst j.
    rewrite Z2Nat.id by assumption. exact Hin.
  - intros Hin. exists (Z.of_nat j). split; [assumption|].
    rewrite Nat2Z.id, Nat.eqb_refl.
    replace (0 <=? Z.of_nat j)%Z with true; [reflexivity|].
    symmetry. apply Z.leb_le. lia.
Qed.

Lemma at_assign_negatives mismatch_value K neg_indices neg_lod rows i j row e :
  nth_error rows i = Some row ->
  nth_error row j = Some e ->
  at_ (assign_negatives mismatch_value K neg_indices neg_lod rows) i j
  = if existsb (fun id => (0 <=? id)%Z && Nat.eqb (Z.to_nat id) j)
         (negatives neg_indices neg_lod i)
    then Some (mismatched mismatch_value K, 1%Q)
    else Some e.
Proof.
  intros Hi Hj. unfold at_, assign_negatives.
  rewrite nth_error_map_indexed, Hi. cbn [option_map Nat.add].
  rewrite overwrite_negatives_nth, Hj.
  assert (Hlt : (j <? List.length row)%nat = true).
  { apply Nat.ltb_lt. apply nth_error_Some. congruence. }
  rewrite Hlt, andb_true_r. reflexivity.
Qed.

End TargetAssignFacts.

(** C5. For every instance [i] and column [j] of the target assigner: a
    match index [id >= 0] gives the feature vector of source row
    [lod[i] + id] of [X], at column [j] modulo the number of columns of
    that row, with weight [1]; any other match index gives the mismatch
    value broadcast across the [K] features with weight [0]; and when
    negative indices are supplied, every negative index of instance [i]
    is overwritten with the mismatch value and weight [1], the other
    columns keeping what the match indices gave them. *)
Theorem target_assign_entries X lod match_indices neg mismatch_value K i j
    indices id :
  nth_error match_indices i = Some indices ->
  nth_error indices j = Some id ->
  let matched :=
    TargetAssign.assign_matched X lod mismatch_value K match_indices in
  let out :=
    TargetAssign.target_assign X lod match_indices neg mismatch_value K in
  let fill := TargetAssign.mismatched mismatch_value K in
  (* the match indices *)
  ((0 <= id)%Z ->
   (forall row x,
       nth_error X (TargetAssign.offset lod i + Z.to_nat id) = Some row ->
       nth_error row (j mod List.length row) = Some x ->
       TargetAssign.at_ matched i j = Some (x, 1%Q)))
  /\ ((id < 0)%Z -> TargetAssign.at_ matched i j = Some (fill, 0%Q))
  (* the negative indices *)
  /\ (neg = None -> TargetAssign.at_ out i j = TargetAssign.at_ matched i j)
  /\ (forall neg_indices neg_lod,
        neg = Some (neg_indices, neg_lod) ->
        let negs := TargetAssign.negatives neg_indices neg_lod i in
        (In (Z.of_nat j) negs ->
         TargetAssign.at_ out i j = Some (fill, 1%Q))
        /\ (~ In (Z.of_nat j) negs ->
            TargetAssign.at_ out i j = TargetAssign.at_ matched i j)).
Proof.
  intros Hi Hj matched out fill.
  pose proof (TargetAssignFacts.at_assign_matched X lod mismatch_value K
                match_indices i j indices id Hi Hj) as Hm.
  fold matched in Hm.
  split; [|split; [|split]].
  - intros Hid row x Hrow Hx. rewrite Hm.
    unfold TargetAssign.assign_entry, TargetAssign.source.
    apply Z.leb_le in Hid. rewrite Hid, Hrow, Hx. reflexivity.
  - intros Hid. rewrite Hm. unfold TargetAssign.assign_entry.
    apply Z.leb_gt in Hid. rewrite Hid. reflexivity.
  - intros ->. reflexivity.
  - intros neg_indices neg_lod -> negs.
    subst out. unfold TargetAssign.target_assign. fold matched.
    unfold TargetAssign.at_ in Hm.
    destruct (nth_error matched i) as [row|] eqn:Hrow; [|discriminate].
    rewrite (TargetAssignFacts.at_assign_negatives mismatch_value K
               neg_indices neg_lod matched i j row _ Hrow Hm).
    fold negs. unfold TargetAssign.at_. rewrite Hrow, Hm.
    pose proof (TargetAssignFacts.is_negative_spec negs j) as Hspec.
    destruct (existsb _ negs).
    + split; [reflexivity|]. intros Hn. elim Hn. apply Hspec. reflexivity.
    + split; [|reflexivity]. intros Hin. apply Hspec in Hin. discriminate.
Qed.


(** ** Hard negative miner *)

Module HardMinerFacts.
Import HardMiner.

Section Ranking.

Variable cls_loss : list Q.

Local Abbreviation before := (HardMiner.before cls_loss).

Lemma outranks_spec a b :
  outranks cls_loss a b = true
  <-> (loss_of cls_loss b < loss_of cls_loss a)%Q
      \/ ((loss_of cls_loss a == loss_of cls_loss b)%Q /\ (a < b)%nat).
Proof.
  unfold outranks.
  destruct (Qcompare_spec (loss_of cls_loss a) (loss_of cls_loss b))
    as [He|Hl|Hg].
  - rewrite Nat.ltb_lt. split; [auto|].
    intros [H|[_ H]]; [|exact H].
    rewrite He in H. now apply Qlt_irrefl in H.
  - split; [discriminate|].
    intros [H|[H _]].
    + exfalso. apply (Qlt_irrefl (loss_of cls_loss a)).
      eapply Qlt_trans; eauto.
    + rewrite H in Hl. now apply Qlt_irrefl in Hl.
  - split; auto.
Qed.

Lemma before_spec a b :
  before a b
  <-> (loss_of cls_loss b < loss_of cls_loss a)%Q
      \/ ((loss_of cls_loss a == loss_of cls_loss b)%Q /\ (a <= b)%nat).
Proof.
  unfold before, outranks.
  destruct (Qcompare_spec (loss_of cls_loss b) (loss_of cls_loss a))
    as [He|Hl|Hg].
  - rewrite Nat.ltb_ge. split.
    + intros H. right. split; [symmetry; exact He | exact H].
    + intros [H|[_ H]]; [|exact H].
      rewrite He in H. now apply Qlt_irrefl in H.
  - split; auto.
  - split; [discriminate|].
    intros [H|[H _]].
    + exfalso. apply (Qlt_irrefl (loss_of cls_loss a)).
      eapply Qlt_trans; eauto.
    + rewrite H in Hg. now apply Qlt_irrefl in Hg.
Qed.

Lemma before_trans a b c : before a b -> before b c -> before a c.
Proof.
  rewrite !before_spec.
  intros [H1|[E1 L1]] [H2|[E2 L2]].
  - left. eapply Qlt_trans; eauto.
  - left. rewrite <- E2. exact H1.
  - left. rewrite E1. exact H2.
  - right. split; [rewrite E1; exact E2 | lia].
Qed.

Lemma outranks_before a b : outranks cls_loss a b = true -> before a b.
Proof.
  rewrite outranks_spec, before_spec.
  intros [H|[E L]]; [left; exact H | right; split; [exact E | lia]].
Qed.

Lemma before_distinct a b : before a b -> a <> b -> outranks cls_loss a b = true.
Proof.
  rewrite outranks_spec, before_spec.
  intros [H|[E L]] Hne; [left; exact H | right; split; [exact E | lia]].
Qed.

Lemma insert_perm a l : Permutation (a :: l) (insert cls_loss a l).
Proof.
  induction l as [|b l IH]; simpl; [reflexivity|].
  destruct (outranks cls_loss a b); [reflexivity|].
  rewrite perm_swap. constructor. exact IH.
Qed.

Lemma insert_sorted a l :
  StronglySorted before l -> StronglySorted before (insert cls_loss a l).
Proof.
  induction 1 as [|b l Hs IH Hb]; simpl.
  - repeat constructor.
  - destruct (outranks cls_loss a b) eqn:E.
    + constructor; [constructor; assumption|].
      apply outranks_before in E.
      constructor; [exact E|].
      eapply Forall_impl; [|exact Hb].
      intros c Hc. eapply before_trans; eauto.
    + constructor; [exact IH|].
      rewrite <- (insert_perm a l). constructor; [exact E | exact Hb].
Qed.

Lemma rank_perm l : Permutation l (rank cls_loss l).
Proof.
  induction l as [|a l IH]; simpl; [reflexivity|].
  rewrite <- insert_perm. constructor. exact IH.
Qed.

Lemma rank_sorted l : StronglySorted before (rank cls_loss l).
Proof.
  induction l as [|a l IH]; simpl; [constructor|].
  apply insert_sorted. exact IH.
Qed.

(** In a sorted list, the first [k] elements come before all the others. *)
Lemma sorted_firstn_skipn k l a b :
  StronglySorted before l ->
  In a (firstn k l) -> In b (skipn k l) -> before a b.
Proof.
  intros Hs. revert k. induction Hs as [|c l Hs IH Hc]; intros [|k]; simpl;
    try tauto.
  intros [<-|Ha] Hb.
  - rewrite Forall_forall in Hc. apply Hc.
    rewrite <- (firstn_skipn k l). apply in_or_app. now right.
  - eauto.
Qed.

Lemma firstn_sorted k l :
  StronglySorted before l -> StronglySorted before (firstn k l).
Proof.
  intros Hs. revert k. induction Hs as [|c l Hs IH Hc]; intros [|k]; simpl;
    try constructor; auto.
  rewrite Forall_forall in *. intros x Hx. apply Hc.
  rewrite <- (firstn_skipn k l). apply in_or_app. now left.
Qed.

End Ranking.

Lemma candidates_spec thr match_indices match_dist j :
  In j (candidates thr match_indices match_dist)
  <-> exists d,
        nth_error match_indices j = Some (-1)%Z
        /\ nth_error match_dist j = Some d
        /\ (d < thr)%Q.
Proof.
  unfold candidates. rewrite in_map_iff. split.
  - intros ([j' [id d]] & Hj & Hin). simpl in Hj. subst j'.
    apply filter_In in Hin. destruct Hin as [Hin Hc].
    unfold is_candidate in Hc. apply andb_prop in Hc. destruct Hc as [Hid Hd].
    apply Z.eqb_eq in Hid. subst id. apply Qltb_lt in Hd.
    exists d.
    apply In_nth_error in Hin. destruct Hin as [k Hk].
    rewrite nth_error_combine, nth_error_seq0 in Hk.
    destruct (k <? List.length match_indices)%nat; [|discriminate].
    rewrite nth_error_combine in Hk.
    destruct (nth_error match_indices k) as [id|] eqn:Eid; [|discriminate].
    destruct (nth_error match_dist k) as [d'|] eqn:Ed; [|discriminate].
    injection Hk as Hkj Hid Hdd. subst k id d'. auto.
  - intros (d & Hid & Hd & Hlt).
    exists (j, ((-1)%Z, d)). split; [reflexivity|].
    apply filter_In. split.
    + apply nth_error_In with (n := j).
      rewrite nth_error_combine, nth_error_seq0, nth_error_combine, Hid, Hd.
      replace (j <? List.length match_indices)%nat with true; [reflexivity|].
      symmetry. apply Nat.ltb_lt. apply nth_error_Some. congruence.
    + unfold is_candidate. rewrite Z.eqb_refl. simpl. now apply Qltb_lt.
Qed.

Lemma candidates_NoDup thr match_indices match_dist :
  NoDup (candidates thr match_indices match_dist).
Proof.
  unfold candidates.
  set (n := List.length match_indices). generalize (combine match_indices match_dist).
  generalize 0%nat. generalize n. clear.
  intros n k l. 
  assert (H : forall (l : list (Z * Q)) n k,
             NoDup (map fst (combine (seq k n) l))
             /\ forall x, In x (map fst (combine (seq k n) l)) -> (k <= x)%nat).
  { clear. induction l as [|y l IH]; intros [|n] k; simpl;
      try (split; [constructor | tauto]).
    destruct (IH n (S k)) as [Hnd Hge]. split.
    - constructor; [|exact Hnd]. intros Hin. apply Hge in Hin. lia.
    - intros x [<-|Hx]; [lia|]. apply Hge in Hx. lia. }
  destruct (H l n k) as [Hnd _].
  revert Hnd. generalize (combine (seq k n) l). clear.
  induction l as [|[j [id d]] l IH]; simpl; [constructor|].
  intros Hnd. inversion Hnd as [|? ? Hnin Hnd']; subst.
  destruct (is_candidate thr id d); simpl; auto.
  constructor; auto.
  intros Hin. apply Hnin. apply in_map_iff in Hin.
  destruct Hin as (x & Hx & Hin). apply filter_In in Hin.
  apply in_map_iff. exists x. tauto.
Qed.

Lemma quota_zero ratio : quota ratio 0 = 0%nat.
Proof.
  unfold quota. cbn [Z.of_nat].
  assert (H : (ratio * inject_Z 0 == 0)%Q) by apply Qmult_0_r.
  rewrite H. reflexivity.
Qed.

Lemma sorted_strict cls_loss l :
  StronglySorted (HardMiner.before cls_loss) l -> NoDup l ->
  StronglySorted (fun a b => outranks cls_loss a b = true) l.
Proof.
  induction 1 as [|a l Hs IH Ha]; intros Hnd; constructor;
    inversion Hnd as [|? ? Hnin Hnd']; subst; auto.
  rewrite Forall_forall in *. intros b Hb.
  apply before_distinct; [auto|]. intros ->. contradiction.
Qed.

Lemma NoDup_firstn {A} k (l : list A) : NoDup l -> NoDup (firstn k l).
Proof.
  intros H. rewrite <- (firstn_skipn k l) in H.
  eapply NoDup_app_remove_r. exact H.
Qed.

End HardMinerFacts.

(** C6. For each instance the hard negative miner selects at most
    [floor(neg_pos_ratio * num_pos)] negatives, none when [num_pos = 0],
    and as many as that when there are enough candidates; every selected
    prior has match index [-1] and a match distance below the threshold;
    the selection is in rank order, by classification loss descending with
    ties broken by ascending prior index, and every selected prior is
    ranked before every candidate left out. *)
Theorem mine_instance_selection cls_loss match_indices match_dist
    neg_pos_ratio neg_dist_threshold :
  let selected :=
    HardMiner.mine_instance cls_loss match_indices match_dist neg_pos_ratio
      neg_dist_threshold in
  let cands :=
    HardMiner.candidates neg_dist_threshold match_indices match_dist in
  let npos := HardMiner.num_pos match_indices in
  let bound := Qfloor (neg_pos_ratio * inject_Z (Z.of_nat npos)) in
  (Z.of_nat (List.length selected) <= Z.max 0 bound)%Z
  /\ List.length selected = Nat.min (Z.to_nat bound) (List.length cands)
  /\ (npos = 0%nat -> selected = [])
  /\ (forall j,
        In j selected ->
        nth_error match_indices j = Some (-1)%Z
        /\ exists d,
             nth_error match_dist j = Some d /\ (d < neg_dist_threshold)%Q)
  /\ NoDup selected
  /\ StronglySorted (fun a b => HardMiner.outranks cls_loss a b = true)
       selected
  /\ (forall s c,
        In s selected -> In c cands -> ~ In c selected ->
        HardMiner.outranks cls_loss s c = true).
Proof.
  intros selected cands npos bound.
  pose proof (HardMinerFacts.rank_perm cls_loss cands) as Hperm.
  pose proof (HardMinerFacts.rank_sorted cls_loss cands) as Hsorted.
  pose proof (HardMinerFacts.candidates_NoDup neg_dist_threshold
                match_indices match_dist) as Hnd.
  fold cands in Hnd.
  assert (Hnd' : NoDup (HardMiner.rank cls_loss cands))
    by (eapply Permutation_NoDup; eauto).
  assert (Hlen : List.length selected
                 = Nat.min (Z.to_nat bound) (List.length cands)).
  { unfold selected, HardMiner.mine_instance. rewrite length_firstn.
    fold cands. rewrite <- (Permutation_length Hperm). reflexivity. }
  assert (Hsub : forall j, In j selected -> In j cands).
  { intros j Hj. unfold selected, HardMiner.mine_instance in Hj.
    apply In_firstn in Hj. eapply Permutation_in; [symmetry|]; eauto. }
  split; [rewrite Hlen; lia|]. split; [exact Hlen|].
  split.
  { intros Hz. unfold selected, HardMiner.mine_instance. fold npos.
    rewrite Hz, HardMinerFacts.quota_zero. reflexivity. }
  split.
  { intros j Hj. apply Hsub in Hj.
    apply HardMinerFacts.candidates_spec in Hj.
    destruct Hj as (d & H1 & H2 & H3). eauto. }
  split; [apply HardMinerFacts.NoDup_firstn; exact Hnd'|].
  split.
  { apply HardMinerFacts.sorted_strict.
    - apply HardMinerFacts.firstn_sorted. exact Hsorted.
    - apply HardMinerFacts.NoDup_firstn. exact Hnd'. }
  intros s c Hs Hc Hnot.
  apply HardMinerFacts.before_distinct; [|intros ->; contradiction].
  eapply HardMinerFacts.sorted_firstn_skipn; [exact Hsorted|exact Hs|].
  assert (Hin : In c (HardMiner.rank cls_loss cands))
    by (eapply Permutation_in; eauto).
  rewrite <- (firstn_skipn
                (HardMiner.quota neg_pos_ratio
                   (HardMiner.num_pos match_indices))
                (HardMiner.rank cls_loss cands)) in Hin.
  apply in_app_or in Hin. destruct Hin as [Hin|Hin]; [contradiction|exact Hin].
Qed.


(** ** Bipartite matcher *)

Module BipartiteMatchFacts.
Import BipartiteMatch.

Local Open Scope Q_scope.

Section Scan.

Context {K : Type}.
Variable f : K -> Q.

Lemma scan_step_scanned seen best k :
  scanned f seen best -> scanned f (seen ++ [k]) (scan_step f best k).
Proof.
  unfold scan_step, scanned. intros H.
  destruct (Qltb 0 (f k)) eqn:Hpos.
  - apply Qltb_lt in Hpos. destruct best as [[k0 bd]|].
    + destruct H as (Hbd & Hbpos & l1 & l2 & Hseen & H1 & H2).
      destruct (Qltb bd (f k)) eqn:Hlt.
      * apply Qltb_lt in Hlt. simpl.
        split; [reflexivity|]. split; [assumption|].
        exists seen, []. split; [reflexivity|]. split; [|intros ? []].
        intros k' Hk'. subst seen. apply in_app_or in Hk'.
        destruct Hk' as [Hk'|[<-|Hk']].
        -- eapply Qlt_trans; eauto.
        -- rewrite <- Hbd. assumption.
        -- eapply Qle_lt_trans; eauto.
      * apply Qltb_ge in Hlt. simpl.
        split; [assumption|]. split; [assumption|].
        exists l1, (l2 ++ [k]). subst seen.
        split; [rewrite <- app_assoc; reflexivity|]. split; [assumption|].
        intros k' Hk'. apply in_app_or in Hk'.
        destruct Hk' as [Hk'|[<-|[]]]; auto.
    + simpl. split; [reflexivity|]. split; [assumption|].
      exists seen, []. split; [reflexivity|]. split; [|intros ? []].
      intros k' Hk'. apply Qnot_le_lt. intros Hle.
      apply (H k' Hk'). eapply Qlt_le_trans; eauto.
  - apply Qltb_ge in Hpos. destruct best as [[k0 bd]|]; simpl.
    + destruct H as (Hbd & Hbpos & l1 & l2 & Hseen & H1 & H2).
      split; [assumption|]. split; [assumption|].
      exists l1, (l2 ++ [k]). subst seen.
      split; [rewrite <- app_assoc; reflexivity|]. split; [assumption|].
      intros k' Hk'. apply in_app_or in Hk'.
      destruct Hk' as [Hk'|[<-|[]]]; auto.
      apply Qlt_le_weak. eapply Qle_lt_trans; eauto.
    + intros k' Hk'. apply in_app_or in Hk'.
      destruct Hk' as [Hk'|[<-|[]]]; auto.
      intros Hlt. eapply Qlt_irrefl. eapply Qlt_le_trans; eauto.
Qed.

Lemma scan_scanned keys seen best :
  scanned f seen best ->
  scanned f (seen ++ keys) (fold_left (scan_step f) keys best).
Proof.
  revert seen best. induction keys as [|k keys IH]; intros seen best H; simpl.
  - rewrite app_nil_r. exact H.
  - replace (seen ++ k :: keys) with ((seen ++ [k]) ++ keys)
      by (rewrite <- app_assoc; reflexivity).
    apply IH. apply scan_step_scanned. exact H.
Qed.

Lemma argmax_scanned keys : scanned f keys (argmax f keys).
Proof.
  unfold argmax. apply (scan_scanned keys [] None). intros k [].
Qed.

End Scan.

(** *** Scan order *)

Lemma sorted_after {A} (R : A -> A -> Prop) l1 k l2 :
  StronglySorted R (l1 ++ k :: l2) -> forall k', In k' l2 -> R k k'.
Proof.
  induction l1 as [|a l1 IH]; simpl; intros H k' Hk'.
  - apply StronglySorted_inv in H. destruct H as [_ H].
    rewrite Forall_forall in H. auto.
  - apply StronglySorted_inv in H. destruct H as [H _]. eauto.
Qed.

Lemma seq_sorted k n : StronglySorted lt (seq k n).
Proof.
  revert k. induction n as [|n IH]; intros k; simpl; constructor; auto.
  apply Forall_forall. intros x Hx. apply in_seq in Hx. lia.
Qed.

Lemma filter_sorted {A} (R : A -> A -> Prop) p l :
  StronglySorted R l -> StronglySorted R (filter p l).
Proof.
  induction 1 as [|a l Hs IH Ha]; simpl; [constructor|].
  destruct (p a); [|exact IH].
  constructor; [exact IH|].
  rewrite Forall_forall in *. intros x Hx. apply filter_In in Hx.
  destruct Hx. auto.
Qed.

Lemma remove_sorted r l :
  StronglySorted lt l -> StronglySorted lt (remove Nat.eq_dec r l).
Proof.
  induction 1 as [|a l Hs IH Ha]; simpl; [constructor|].
  destruct (Nat.eq_dec r a); [exact IH|].
  constructor; [exact IH|].
  rewrite Forall_forall in *. intros x Hx. apply in_remove in Hx.
  destruct Hx. auto.
Qed.

Lemma unmatched_spec matches c :
  In c (unmatched matches)
  <-> (c < List.length matches)%nat /\ nth c matches 0%Z = (-1)%Z.
Proof.
  unfold unmatched. rewrite filter_In, in_seq, Z.eqb_eq. intuition lia.
Qed.

Lemma remaining_spec s r c :
  In (r, c) (remaining (pool s) (indices s)) <-> is_remaining s r c.
Proof.
  unfold remaining, is_remaining. rewrite in_flat_map. split.
  - intros (r' & Hr & Hin). apply in_map_iff in Hin.
    destruct Hin as (c' & Heq & Hc). injection Heq as -> ->.
    apply unmatched_spec in Hc. tauto.
  - intros (Hr & Hc). exists r. split; [assumption|].
    apply in_map. apply unmatched_spec. exact Hc.
Qed.

Lemma remaining_sorted pool matches :
  StronglySorted lt pool ->
  StronglySorted rowmajor_lt (remaining pool matches).
Proof.
  unfold remaining.
  assert (Hcols : StronglySorted lt (unmatched matches))
    by (apply filter_sorted, seq_sorted).
  revert Hcols. generalize (unmatched matches) as cols. intros cols Hcols.
  induction 1 as [|r pool Hs IH Hr]; simpl; [constructor|].
  assert (Hrow :
    forall cs, StronglySorted lt cs ->
      StronglySorted rowmajor_lt
        (map (pair r) cs ++ flat_map (fun r0 => map (pair r0) cols) pool)).
  { induction 1 as [|c cs Hcs IHcs Hc]; simpl; [exact IH|].
    constructor; [exact IHcs|].
    apply Forall_app. split.
    - apply Forall_forall. intros [r' c'] Hin. apply in_map_iff in Hin.
      destruct Hin as (c0 & Heq & Hc0). injection Heq as <- <-.
      right. simpl. rewrite Forall_forall in Hc. auto.
    - apply Forall_forall. intros [r' c'] Hin. apply in_flat_map in Hin.
      destruct Hin as (r0 & Hr0 & Hin). apply in_map_iff in Hin.
      destruct Hin as (c0 & Heq & Hc0). injection Heq as <- <-.
      left. simpl. rewrite Forall_forall in Hr. auto. }
  apply Hrow. exact Hcols.
Qed.

(** *** The selection of one round *)

Lemma select_some dist s r c d :
  StronglySorted lt (pool s) ->
  select dist (pool s) (indices s) = Some ((r, c), d) ->
  first_maximum dist s r c d.
Proof.
  intros Hsorted Hsel. unfold select in Hsel.
  pose proof (argmax_scanned (fun '(r, c) => entry dist r c)
                (remaining (pool s) (indices s))) as H.
  rewrite Hsel in H.
  destruct H as (Hd & Hpos & l1 & l2 & Hkeys & H1 & H2).
  pose proof (remaining_sorted (pool s) (indices s) Hsorted) as Hs.
  rewrite Hkeys in Hs.
  assert (Hin : forall r' c',
             is_remaining s r' c' ->
             In (r', c') l1 \/ (r', c') = (r, c) \/ In (r', c') l2).
  { intros r' c' Hrem. apply remaining_spec in Hrem. rewrite Hkeys in Hrem.
    apply in_app_or in Hrem. destruct Hrem as [?|[?|?]]; auto. }
  split; [|split; [exact Hd|split; [exact Hpos|]]].
  - apply remaining_spec. rewrite Hkeys. apply in_or_app. right. now left.
  - intros r' c' Hrem. destruct (Hin r' c' Hrem) as [Hl1|[Heq|Hl2]].
    + specialize (H1 _ Hl1). simpl in H1. split.
      * apply Qlt_le_weak. exact H1.
      * intros Hle. exfalso. eapply Qlt_irrefl. eapply Qlt_le_trans; eauto.
    + injection Heq as -> ->. split.
      * rewrite Hd. apply Qle_refl.
      * intros _. right. split; [reflexivity|lia].
    + specialize (H2 _ Hl2). simpl in H2. split; [exact H2|].
      intros _. pose proof (sorted_after _ _ _ _ Hs _ Hl2) as Hlt.
      destruct Hlt as [Hlt|[Heq Hlt]]; simpl in *.
      * left. exact Hlt.
      * right. split; [exact Heq|lia].
Qed.

Lemma select_none dist s :
  select dist (pool s) (indices s) = None ->
  forall r c, is_remaining s r c -> ~ 0 < entry dist r c.
Proof.
  intros Hsel r c Hrem. unfold select in Hsel.
  pose proof (argmax_scanned (fun '(r, c) => entry dist r c)
                (remaining (pool s) (indices s))) as H.
  rewrite Hsel in H. apply remaining_spec in Hrem.
  exact (H _ Hrem).
Qed.

(** *** The invariant of the primary pass *)

Lemma well_formed_initial rows cols : well_formed rows (initial rows cols).
Proof.
  unfold well_formed, initial. simpl.
  split; [apply seq_sorted|].
  split; [intros r Hr; apply in_seq in Hr; lia|].
  split; [now rewrite !repeat_length|].
  assert (H : forall c id,
             nth_error (repeat (-1)%Z cols) c = Some id -> id = (-1)%Z).
  { intros c id Hc. apply nth_error_In in Hc. apply repeat_spec in Hc.
    exact Hc. }
  split; [eauto|eauto].
Qed.

Lemma well_formed_record dist rows s r c d :
  well_formed rows s ->
  first_maximum dist s r c d ->
  well_formed rows (record s r c d).
Proof.
  intros (Hsorted & Hrange & Hlen & Hidx & Hinj) ((Hr & Hc & Hfree) & _).
  assert (Hold : nth_error (indices s) c = Some (-1)%Z).
  { rewrite (nth_error_nth' _ 0%Z Hc). rewrite Hfree. reflexivity. }
  apply Nat.ltb_lt in Hc.
  unfold well_formed, record. simpl.
  split; [apply remove_sorted; exact Hsorted|].
  split; [intros r' Hr'; apply in_remove in Hr'; destruct Hr'; auto|].
  split; [now rewrite !length_list_set|].
  split.
  - intros c' id. rewrite nth_error_list_set, Hc, andb_true_r.
    destruct (Nat.eqb_spec c c') as [<-|Hne].
    + intros [= <-]. right. rewrite Nat2Z.id.
      split; [specialize (Hrange r Hr); lia|]. apply remove_In.
    + intros Hc'. destruct (Hidx c' id Hc') as [->|[Hid Hnin]]; [now left|].
      right. split; [exact Hid|]. intros Hin. apply in_remove in Hin.
      destruct Hin. contradiction.
  - assert (Hfresh :
      forall c' id, c <> c' -> nth_error (indices s) c' = Some id ->
                    id = Z.of_nat r -> False).
    { intros c' id Hne Hc' ->. destruct (Hidx c' _ Hc') as [Hm|[_ Hnin]].
      - lia.
      - rewrite Nat2Z.id in Hnin. contradiction. }
    intros c1 c2 id Hne. rewrite !nth_error_list_set, Hc, !andb_true_r.
    destruct (Nat.eqb_spec c c1) as [<-|Hne1];
      destruct (Nat.eqb_spec c c2) as [<-|Hne2].
    + contradiction.
    + intros [= <-] Hc2. exfalso. eapply Hfresh; eauto.
    + intros Hc1 [= <-]. exfalso. eapply Hfresh; eauto.
    + apply Hinj. exact Hne.
Qed.

Lemma primary_greedy dist rows fuel s :
  well_formed rows s ->
  (List.length (pool s) <= fuel)%nat ->
  greedy dist s (primary dist fuel s)
  /\ well_formed rows (primary dist fuel s).
Proof.
  revert s. induction fuel as [|fuel IH]; intros s Hwf Hfuel; simpl.
  - split; [|exact Hwf]. apply greedy_stop. left.
    destruct (pool s); [reflexivity|simpl in Hfuel; lia].
  - destruct (pool s) as [|r0 rest] eqn:Hpool.
    + split; [|exact Hwf]. apply greedy_stop. left. exact Hpool.
    + rewrite <- Hpool in Hfuel |- *.
      destruct (select dist (pool s) (indices s)) as [[[r c] d]|] eqn:Hsel.
      * assert (Hmax : first_maximum dist s r c d).
        { apply select_some; [|exact Hsel]. apply Hwf. }
        assert (Hwf' : well_formed rows (record s r c d))
          by (eapply well_formed_record; eauto).
        assert (Hlt : (List.length (pool (record s r c d)) <= fuel)%nat).
        { unfold record. simpl.
          pose proof (remove_length_lt Nat.eq_dec (pool s) r) as Hrm.
          destruct Hmax as ((Hr & _) & _). specialize (Hrm Hr). lia. }
        destruct (IH _ Hwf' Hlt) as [Hg Hw].
        split; [|exact Hw]. eapply greedy_match; eauto.
      * split; [|exact Hwf]. apply greedy_stop. right.
        apply select_none. exact Hsel.
Qed.

Lemma primary_length dist fuel s :
  List.length (indices (primary dist fuel s)) = List.length (indices s).
Proof.
  revert s. induction fuel as [|fuel IH]; intros s; simpl; [reflexivity|].
  destruct (pool s); [reflexivity|].
  destruct (select dist _ (indices s)) as [[[r c] d]|]; [|reflexivity].
  rewrite IH. unfold record. simpl. apply length_list_set.
Qed.

(** *** The greedy matching is a function of the matrix *)

Lemma first_maximum_unique dist s r c d r' c' d' :
  first_maximum dist s r c d -> first_maximum dist s r' c' d' ->
  r = r' /\ c = c' /\ d = d'.
Proof.
  intros (Hrem & Hd & _ & Hmax) (Hrem' & Hd' & _ & Hmax').
  destruct (Hmax _ _ Hrem') as [Hle Hord].
  destruct (Hmax' _ _ Hrem) as [Hle' Hord'].
  rewrite <- Hd' in Hle, Hord. rewrite <- Hd in Hle', Hord'.
  specialize (Hord Hle'). specialize (Hord' Hle).
  assert (Hrc : r = r' /\ c = c').
  { unfold rowmajor_le in *. lia. }
  destruct Hrc as [-> ->]. repeat split. congruence.
Qed.

Lemma exhausted_no_maximum dist s r c d :
  exhausted dist s -> first_maximum dist s r c d -> False.
Proof.
  intros [Hnil|Hnone] (Hrem & Hd & Hpos & _).
  - destruct Hrem as [Hr _]. rewrite Hnil in Hr. exact Hr.
  - apply (Hnone _ _ Hrem). rewrite <- Hd. exact Hpos.
Qed.

Lemma greedy_deterministic dist s s1 s2 :
  greedy dist s s1 -> greedy dist s s2 -> s1 = s2.
Proof.
  intros H1. revert s2.
  induction H1 as [s Hex|s r c d s1 Hmax Hg IH]; intros s2 H2.
  - inversion H2 as [|? r c d ? Hmax Hg]; subst; [reflexivity|].
    exfalso. eapply exhausted_no_maximum; eauto.
  - inversion H2 as [? Hex|? r' c' d' ? Hmax' Hg']; subst.
    + exfalso. eapply exhausted_no_maximum; eauto.
    + destruct (first_maximum_unique _ _ _ _ _ _ _ _ Hmax Hmax')
        as (-> & -> & ->).
      apply IH. exact Hg'.
Qed.

(** *** The fallback pass *)

Lemma best_row_some dist rows c r d :
  best_row dist rows c = Some (r, d) -> best_of_column dist rows c r d.
Proof.
  intros Hsel. unfold best_row in Hsel.
  pose proof (argmax_scanned (fun r => entry dist r c) (seq 0 rows)) as H.
  rewrite Hsel in H.
  destruct H as (Hd & Hpos & l1 & l2 & Hkeys & H1 & H2).
  pose proof (seq_sorted 0 rows) as Hs. rewrite Hkeys in Hs.
  assert (Hin : forall r', (r' < rows)%nat ->
                           In r' l1 \/ r' = r \/ In r' l2).
  { intros r' Hr'. assert (Hr : In r' (seq 0 rows)) by (apply in_seq; lia).
    rewrite Hkeys in Hr. apply in_app_or in Hr.
    destruct Hr as [?|[?|?]]; auto. }
  split; [|split; [exact Hd|split; [exact Hpos|]]].
  - assert (Hr : In r (seq 0 rows))
      by (rewrite Hkeys; apply in_or_app; right; now left).
    apply in_seq in Hr. lia.
  - intros r' Hr'. destruct (Hin r' Hr') as [Hl1|[->|Hl2]].
    + specialize (H1 _ Hl1). split.
      * apply Qlt_le_weak. exact H1.
      * intros Hle. exfalso. eapply Qlt_irrefl. eapply Qlt_le_trans; eauto.
    + split; [rewrite Hd; apply Qle_refl | intros _; lia].
    + specialize (H2 _ Hl2). split; [exact H2|].
      intros _. pose proof (sorted_after _ _ _ _ Hs _ Hl2). lia.
Qed.

Lemma best_row_none dist rows c :
  best_row dist rows c = None ->
  forall r, (r < rows)%nat -> ~ 0 < entry dist r c.
Proof.
  intros Hsel r Hr. unfold best_row in Hsel.
  pose proof (argmax_scanned (fun r => entry dist r c) (seq 0 rows)) as H.
  rewrite Hsel in H. apply H. apply in_seq. lia.
Qed.

Lemma fallback_nth dist rows indices distances c :
  List.length distances = List.length indices ->
  nth_error (fallback dist rows indices distances) c
  = match nth_error indices c, nth_error distances c with
    | Some id, Some d =>
        Some (if (id =? -1)%Z then
                match best_row dist rows c with
                | Some (r, d') => (Z.of_nat r, d')
                | None => (id, d)
                end
              else (id, d))
    | _, _ => None
    end.
Proof.
  intros Hlen. unfold fallback.
  pose proof (nth_error_map_indexed
                (fun '(c, (id, d)) =>
                   if (id =? -1)%Z then
                     match best_row dist rows c with
                     | Some (r, d') => (Z.of_nat r, d')
                     | None => (id, d)
                     end
                   else (id, d))
                (combine indices distances) 0 c) as H.
  cbn [Nat.add] in H.
  replace (List.length indices)
    with (List.length (combine indices distances))
    by (rewrite length_combine; lia).
  rewrite H, nth_error_combine.
  destruct (nth_error indices c), (nth_error distances c); reflexivity.
Qed.

End BipartiteMatchFacts.

(** C7. The bipartite matcher is a function of the distance matrix.  Its
    primary pass is the greedy matching of the description: it repeatedly
    selects the maximum of the remaining entries, the first one in
    row-major order among equals, and removes the matched row and column,
    until all rows are consumed or no remaining entry is [> 0]; this
    matching is unique, and no row is matched to two columns by it.  The
    fallback pass leaves the matched columns as they are and gives every
    other column its best row among all rows, matched or not, when one has
    a similarity [> 0].  Every output index is [-1] or a row index. *)
Theorem bipartite_match_greedy dist rows cols :
  let s := BipartiteMatch.primary_pass dist rows cols in
  let out := BipartiteMatch.bipartite_match dist rows cols in
  (* the primary pass *)
  BipartiteMatch.greedy dist (BipartiteMatch.initial rows cols) s
  /\ (forall s',
        BipartiteMatch.greedy dist (BipartiteMatch.initial rows cols) s' ->
        s' = s)
  /\ (forall c1 c2 id,
        c1 <> c2 ->
        nth_error (BipartiteMatch.indices s) c1 = Some id ->
        nth_error (BipartiteMatch.indices s) c2 = Some id ->
        id = (-1)%Z)
  (* the output *)
  /\ List.length out = cols
  /\ (forall c id d,
        nth_error out c = Some (id, d) ->
        id = (-1)%Z \/ (0 <= id < Z.of_nat rows)%Z)
  (* the fallback pass *)
  /\ (forall c id d,
        nth_error out c = Some (id, d) ->
        exists pid pd,
          nth_error (BipartiteMatch.indices s) c = Some pid
          /\ nth_error (BipartiteMatch.distances s) c = Some pd
          /\ ((pid <> (-1)%Z /\ id = pid /\ d = pd)
              \/ (pid = (-1)%Z
                  /\ ((exists r,
                         id = Z.of_nat r
                         /\ BipartiteMatch.best_of_column dist rows c r d)
                      \/ (id = (-1)%Z
                          /\ forall r,
                               (r < rows)%nat ->
                               ~ (0 < BipartiteMatch.entry dist r c)%Q))))).
Proof.
  intros s out.
  destruct (BipartiteMatchFacts.primary_greedy dist rows rows
              (BipartiteMatch.initial rows cols)
              (BipartiteMatchFacts.well_formed_initial rows cols))
    as [Hgreedy Hwf].
  { simpl. rewrite length_seq. lia. }
  fold (BipartiteMatch.primary_pass dist rows cols) in Hgreedy, Hwf.
  fold s in Hgreedy, Hwf.
  destruct Hwf as (_ & _ & Hlen & Hidx & Hinj).
  assert (Hcols : List.length (BipartiteMatch.indices s) = cols).
  { unfold s, BipartiteMatch.primary_pass.
    rewrite BipartiteMatchFacts.primary_length. simpl. apply repeat_length. }
  assert (Hout :
    forall c id d,
      nth_error out c = Some (id, d) ->
      exists pid pd,
        nth_error (BipartiteMatch.indices s) c = Some pid
        /\ nth_error (BipartiteMatch.distances s) c = Some pd
        /\ ((pid <> (-1)%Z /\ id = pid /\ d = pd)
            \/ (pid = (-1)%Z
                /\ ((exists r,
                       id = Z.of_nat r
                       /\ BipartiteMatch.best_of_column dist rows c r d)
                    \/ (id = (-1)%Z
                        /\ forall r,
                             (r < rows)%nat ->
                             ~ (0 < BipartiteMatch.entry dist r c)%Q))))).
  { intros c id d Hc. unfold out, BipartiteMatch.bipartite_match in Hc.
    fold s in Hc. rewrite BipartiteMatchFacts.fallback_nth in Hc by exact Hlen.
    destruct (nth_error (BipartiteMatch.indices s) c) as [pid|];
      [|discriminate].
    destruct (nth_error (BipartiteMatch.distances s) c) as [pd|];
      [|discriminate].
    exists pid, pd. split; [reflexivity|]. split; [reflexivity|].
    destruct (Z.eqb_spec pid (-1)) as [->|Hne].
    - right. split; [reflexivity|].
      destruct (BipartiteMatch.best_row dist rows c) as [[r d']|] eqn:Hbest.
      + injection Hc as <- <-. left. exists r. split; [reflexivity|].
        apply BipartiteMatchFacts.best_row_some. exact Hbest.
      + injection Hc as <- <-. right. split; [reflexivity|].
        apply BipartiteMatchFacts.best_row_none. exact Hbest.
    - injection Hc as <- <-. left. auto. }
  split; [exact Hgreedy|].
  split; [intros s' Hs'; eapply BipartiteMatchFacts.greedy_deterministic; eauto|].
  split; [exact Hinj|].
  split.
  { unfold out, BipartiteMatch.bipartite_match, BipartiteMatch.fallback.
    fold s. rewrite length_map, length_combine, length_seq, length_combine.
    lia. }
  split; [|exact Hout].
  intros c id d Hc.
  destruct (Hout c id d Hc) as (pid & pd & Hpid & _ & H).
  destruct H as [(Hne & -> & _) | (_ & [(r & -> & Hbest) | (-> & _)])].
  - destruct (Hidx c pid Hpid) as [?|[? _]]; auto.
  - right. destruct Hbest as (Hr & _). lia.
  - now left.
Qed.

(** * The statements at concrete inputs *)

(** ** The sample runtime follows the rules of shape inference *)

Lemma forallb_positive s :
  Forall (fun z => 0 < z) s -> forallb (Z.ltb 0) s = true.
Proof.
  induction 1 as [|z s Hz _ IH]; simpl; [reflexivity|].
  rewrite IH. apply Z.ltb_lt in Hz. rewrite Hz. reflexivity.
Qed.

Lemma sample_reshape_rule : reshape_rule sample_infer_shape.
Proof.
  intros T x d out Hpos Hd. unfold sample_infer_shape. cbn.
  rewrite (forallb_positive _ Hpos). apply Z.ltb_lt in Hd. rewrite Hd.
  reflexivity.
Qed.

Lemma sample_softmax_rule : softmax_rule sample_infer_shape.
Proof.
  intros T logits label softmax loss r c H. unfold sample_infer_shape. cbn.
  rewrite H. reflexivity.
Qed.

Lemma sample_elementwise_rule : elementwise_rule sample_infer_shape.
Proof.
  split.
  - intros T type x y out r [->| ->] H; unfold sample_infer_shape; cbn;
      rewrite H; reflexivity.
  - intros T type c y out r [->| ->] Hc H; unfold sample_infer_shape; cbn;
      destruct c; try discriminate; rewrite H; reflexivity.
Qed.

Lemma sample_shapes_not_empty T op slot : sample_infer_shape T op slot <> [].
Proof.
  unfold sample_infer_shape.
  repeat match goal with
         | |- context [match ?x with _ => _ end] => destruct x
         end; discriminate.
Qed.

(** ** [ssd_loss] on the sample graph *)

(** The complete run appends the twenty-six operators of the pipeline. *)
Example ssd_loss_sample_run :
  map op_type
    (new_ops
       (ssd_loss sample_infer_shape 0 1 2 3 4 (PVar 5) (PInt 0) (PFloat 0.5)
          (PFloat 3) (PFloat 0.5) (PFloat 1) (PFloat 1) "per_prediction"
          "max_negative" PNone)
       sample_graph)
  = ssd_loss_kinds.
Proof. vm_compute. reflexivity. Qed.

(** On the sample graph the call returns, and its operators are those of
    the pipeline, stage by stage. *)
Lemma ssd_loss_pipeline_order_witness :
  exists new,
    g_ops
      (fst
         (ssd_loss sample_infer_shape 0 1 2 3 4 (PVar 5) (PInt 0)
            (PFloat 0.5) (PFloat 3) (PFloat 0.5) (PFloat 1) (PFloat 1)
            "per_prediction" "max_negative" PNone sample_graph))
    = g_ops sample_graph ++ new
    /\ map op_type new = ssd_loss_kinds
    /\ stages new
       = ssd_loss_stages 6 2 4 (PVar 5) (PInt 0) (PFloat 3) (PFloat 1)
           (PFloat 1) PNone.
Proof.
  destruct (ssd_loss_pipeline_order sample_infer_shape 0 1 2 3 4 (PVar 5)
              (PInt 0) (PFloat 0.5) (PFloat 3) (PFloat 0.5) (PFloat 1)
              (PFloat 1) "per_prediction" PNone sample_graph)
    as (new & Hops & _ & Hcomplete & Hreturns).
  exists new. split; [exact Hops|].
  destruct Hcomplete as (Hkinds & Hstages & _).
  { apply Hreturns.
    - reflexivity.
    - apply sample_shapes_not_empty.
    - simpl. lia.
    - discriminate. }
  split; [exact Hkinds | exact Hstages].
Defined.

(** On the sample graph the miner is appended, with the ratio [3.0] as its
    distance threshold and not the overlap [0.5]. *)
Lemma ssd_loss_neg_overlap_unused_witness :
  exists new op,
    g_ops
      (fst
         (ssd_loss sample_infer_shape 0 1 2 3 4 (PVar 5) (PInt 0)
            (PFloat 0.5) (PFloat 3) (PFloat 0.5) (PFloat 1) (PFloat 1)
            "per_prediction" "max_negative" PNone sample_graph))
    = g_ops sample_graph ++ new
    /\ In op new
    /\ op_type op = "mine_hard_examples"
    /\ attr_of "neg_dist_threshold" op = Some (PFloat 3).
Proof.
  destruct (ssd_loss_neg_overlap_unused sample_infer_shape 0 1 2 3 4
              (PVar 5) (PInt 0) (PFloat 0.5) (PFloat 3) (PFloat 0.5)
              (PFloat 1) (PFloat 1) "per_prediction" "max_negative" PNone
              sample_graph)
    as (new & Hops & Hattrs & Hmine & _ & Hreturns).
  destruct Hmine as (op & Hin & Htype).
  { apply Hreturns.
    - reflexivity.
    - reflexivity.
    - apply sample_shapes_not_empty.
    - simpl. lia.
    - discriminate. }
  exists new, op. split; [exact Hops|]. split; [exact Hin|].
  split; [exact Htype|]. apply (Hattrs op Hin Htype).
Defined.

(** The loss of the sample graph is variable 39, a column of [2 * 10]
    rows. *)
Lemma ssd_loss_returns_weighted_sum_witness :
  var_shape (nth 1%nat (g_vars sample_graph) d0) = [2; 10; 21]
  /\ (let res :=
        ssd_loss sample_infer_shape 0 1 2 3 4 (PVar 5) (PInt 0) (PFloat 0.5)
          (PFloat 3) (PFloat 0.5) (PFloat 1) (PFloat 1) "per_prediction"
          "max_negative" PNone sample_graph in
      snd res = Ok 39%nat
      /\ var_shape (nth 39%nat (g_vars (fst res)) d0) = [2 * 10; 1]).
Proof.
  split; [reflexivity|].
  destruct (ssd_loss_returns_weighted_sum sample_infer_shape 0 1 2 3 4
              (PVar 5) (PInt 0) (PFloat 0.5) (PFloat 3) (PFloat 0.5)
              (PFloat 1) (PFloat 1) "per_prediction" PNone 2 10 21
              sample_graph eq_refl)
    as (new & _ & Hreturns & Hloss).
  assert (Hok :
    is_Ok
      (snd
         (ssd_loss sample_infer_shape 0 1 2 3 4 (PVar 5) (PInt 0)
            (PFloat 0.5) (PFloat 3) (PFloat 0.5) (PFloat 1) (PFloat 1)
            "per_prediction" "max_negative" PNone sample_graph)) = true).
  { apply Hreturns.
    - apply sample_shapes_not_empty.
    - simpl. lia.
    - discriminate. }
  cbv zeta.
  destruct (snd (ssd_loss _ _ _ _ _ _ _ _ _ _ _ _ _ _ _ _ sample_graph))
    as [loss|e] eqn:Hres; [|discriminate].
  destruct (Hloss loss eq_refl) as (Hid & H).
  assert (Hshape :
    var_shape
      (nth loss
         (g_vars
            (fst
               (ssd_loss sample_infer_shape 0 1 2 3 4 (PVar 5) (PInt 0)
                  (PFloat 0.5) (PFloat 3) (PFloat 0.5) (PFloat 1) (PFloat 1)
                  "per_prediction" "max_negative" PNone sample_graph))) d0)
    = [2 * 10; 1]).
  { apply H.
    - lia.
    - apply sample_reshape_rule.
    - apply sample_softmax_rule.
    - apply sample_elementwise_rule.
    - reflexivity. }
  rewrite Hid in *. split; [reflexivity | exact Hshape].
Defined.

(** A confidence of two dimensions raises a [ValueError] although the
    mining type is ['max_negative']. *)
Lemma ssd_loss_value_error_counterexample :
  exists mining_type,
    mining_type = "max_negative"
    /\ is_ValueError
         (snd
            (ssd_loss sample_infer_shape 0 1 2 3 4 (PVar 5) (PInt 0)
               (PFloat 0.5) (PFloat 3) (PFloat 0.5) (PFloat 1) (PFloat 1)
               "per_prediction" mining_type PNone flat_graph)) = true.
Proof. exists "max_negative". split; reflexivity. Qed.

(** An unsupported mining type leaves the graph as it was. *)
Example ssd_loss_hard_example :
  ssd_loss sample_infer_shape 0 1 2 3 4 (PVar 5) (PInt 0) (PFloat 0.5)
    (PFloat 3) (PFloat 0.5) (PFloat 1) (PFloat 1) "per_prediction"
    "hard_example" PNone sample_graph
  = (sample_graph,
     Raise (ValueError "Only support mining_type == max_negative now.")).
Proof. reflexivity. Qed.

(** ** [prior_box] on the sample graph *)

(** Three inputs with ratios from 20 to 90 of a base size of 300. *)
Example prior_box_sample_sizes :
  layer_sizes 3 20 90 300 PNone PNone
  = Ok (PList [PFloat 30; PFloat 60; PFloat 270],
        PList [PFloat 60; PFloat 270; PFloat 480]).
Proof. vm_compute. reflexivity. Qed.

Lemma prior_box_step_h_ignored_witness :
  truthy PNone = false
  /\ (let res :=
        prior_box sample_infer_shape (PList [PVar 0; PVar 1; PVar 2]) 3 20
          90 (PList [PFloat 2; PFloat 2; PFloat 3]) 300 PNone PNone
          (PList [PFloat 8; PFloat 16; PFloat 32]) (PFloat 0.5)
          (PList [PFloat 0.1]) (PBool false) (PBool false) PNone PNone PNone
          sample_graph in
      exists new,
        g_ops (fst res) = g_ops sample_graph ++ new
        /\ Forall zero_step_prior_box (prior_box_ops new)
        /\ List.length (prior_box_ops new) = 3%nat).
Proof.
  split; [reflexivity|].
  destruct (prior_box_step_h_ignored sample_infer_shape
              [PVar 0; PVar 1; PVar 2] 3 20 90
              (PList [PFloat 2; PFloat 2; PFloat 3]) 300 PNone PNone
              (PList [PFloat 8; PFloat 16; PFloat 32]) (PFloat 0.5)
              (PList [PFloat 0.1]) (PBool false) (PBool false) PNone PNone
              PNone sample_graph eq_refl eq_refl)
    as (new & Hops & Hzero & Hlen & _).
  exists new. split; [exact Hops|]. split; [exact Hzero|].
  apply Hlen. vm_compute. reflexivity.
Defined.



(** Without [min_sizes], a single input meets the assertion on the sizes
    before its lists are checked. *)
Example prior_box_missing_sizes :
  snd
    (prior_box sample_infer_shape (PList [PVar 0]) 3 20 90 (PFloat 2) 300
       PNone PNone PNone (PFloat 0.5) (PList [PFloat 0.1]) (PBool false)
       (PBool false) PNone PNone PNone sample_graph)
  = Raise (AssertionError EmptyString).
Proof. reflexivity. Qed.

(** A tuple of inputs is refused by the assertion at the head of the
    function. *)
Example prior_box_tuple_of_inputs :
  prior_box sample_infer_shape (PTuple [PVar 0; PVar 1]) 3 20 90 PNone 300
    PNone PNone PNone (PFloat 0.5) (PList [PFloat 0.1]) (PBool false)
    (PBool false) (PList [PFloat 30; PFloat 60])
    (PList [PFloat 60; PFloat 90]) PNone sample_graph
  = (sample_graph, Raise (AssertionError "inputs should be a list.")).
Proof. reflexivity. Qed.

(** With [step_w] supplied, the steps reach the operators. *)
Example prior_box_steps_forwarded :
  map (fun op => (attr_of "step_w" op, attr_of "step_h" op))
    (prior_box_ops
       (new_ops
          (prior_box sample_infer_shape (PList [PVar 0; PVar 1]) 3 20 90
             PNone 300 PNone (PList [PFloat 8; PFloat 16])
             (PList [PFloat 4; PFloat 2]) (PFloat 0.5) (PList [PFloat 0.1])
             (PBool false) (PBool false) (PList [PFloat 30; PFloat 60])
             (PList [PFloat 60; PFloat 90]) PNone)
          sample_graph))
  = [(Some (PFloat 8), Some (PFloat 4)); (Some (PFloat 16), Some (PFloat 2))].
Proof. vm_compute. reflexivity. Qed.

(** ** The numeric operators at concrete inputs *)

(** One instance with two ground-truth rows and three priors; prior 1 is a
    mined negative. *)
Lemma target_assign_entries_witness :
  nth_error [[1; -1; 0]%Z] 0 = Some [1; -1; 0]%Z
  /\ nth_error [1; -1; 0]%Z 0 = Some 1%Z
  /\ (let out :=
        TargetAssign.target_assign
          [[[1; 2]%Q]; [[3; 4]%Q]] [0; 2]%nat [[1; -1; 0]%Z]
          (Some ([1%Z], [0; 1]%nat)) 0%Q 2 in
      TargetAssign.at_ out 0 0 = Some ([3; 4]%Q, 1%Q)).
Proof.
  split; [reflexivity|]. split; [reflexivity|].
  destruct (target_assign_entries [[[1; 2]%Q]; [[3; 4]%Q]] [0; 2]%nat
              [[1; -1; 0]%Z] (Some ([1%Z], [0; 1]%nat)) 0%Q 2 0 0
              [1; -1; 0]%Z 1%Z eq_refl eq_refl)
    as (Hmatched & _ & _ & Hneg).
  destruct (Hneg [1%Z] [0; 1]%nat eq_refl) as [_ Hkeep].
  cbv zeta. rewrite Hkeep.
  - apply (Hmatched ltac:(lia) [[3; 4]%Q] [3; 4]%Q); reflexivity.
  - simpl. intros [H|[]]. discriminate.
Defined.

Example target_assign_sample :
  TargetAssign.target_assign
    [[[1; 2]%Q]; [[3; 4]%Q]] [0; 2]%nat [[1; -1; 0]%Z]
    (Some ([1%Z], [0; 1]%nat)) 0%Q 2
  = [[([3; 4]%Q, 1%Q); ([0; 0]%Q, 1%Q); ([1; 2]%Q, 1%Q)]].
Proof. reflexivity. Qed.

(** The end-to-end scenario of the description: one ground-truth box,
    prior 0 of similarity 1 and prior 1 of similarity 0. *)
Example bipartite_match_scenario :
  BipartiteMatch.bipartite_match [[1; 0]%Q] 1 2
  = [(0%Z, 1%Q); ((-1)%Z, (-1)%Q)].
Proof. reflexivity. Qed.

(** In that scenario prior 1 is still unmatched after the primary pass,
    and the fallback pass leaves it so: its only similarity is 0. *)
Lemma bipartite_match_greedy_counterexample :
  nth_error
    (BipartiteMatch.indices (BipartiteMatch.primary_pass [[1; 0]%Q] 1 2)) 1
  = Some (-1)%Z
  /\ nth_error (BipartiteMatch.bipartite_match [[1; 0]%Q] 1 2) 1
     = Some ((-1)%Z, (-1)%Q).
Proof. split; reflexivity. Qed.

(** The fallback pass may give a row to a second column. *)
Example bipartite_match_duplicate_row :
  map fst
    (BipartiteMatch.bipartite_match
       [[1 # 2; 3 # 4; 1 # 4]%Q; [3 # 4; 1 # 10; 0]%Q] 2 3)
  = [1; 0; 0]%Z.
Proof. reflexivity. Qed.

(** One positive allows two negatives: priors 1 and 3 have the highest
    loss among the candidates, prior 4 is too close to a match. *)
Example mine_instance_sample :
  HardMiner.mine_instance [1 # 2; 3 # 4; 1 # 4; 3 # 4; 1]%Q
    [0; -1; -1; -1; -1]%Z [1; 1 # 10; 0; 2 # 10; 9 # 10]%Q 2%Q (1 # 2)%Q
  = [1; 3]%nat.
Proof. reflexivity. Qed.
